(** * AugmentedClaude: the tree-layout script and the report printer

    A shallow embedding of [chart_script.py] (layout of a directory tree and
    the traces handed to the plotting library) and of [script.py] (the
    printed framework analysis), with the properties their specification
    states about them.

    Python values are modelled as the scripts use them: node dictionaries as
    records with an optional [parent], the [positions] dictionary as a finite
    map keyed by node id, numbers as Python's [int] (unbounded, [Z]) or
    [float] (IEEE 754 binary64, Rocq's primitive floats), and exceptions as an
    explicit result type. *)

From Stdlib Require Import ZArith Floats Ascii.
From stdpp Require Import gmap strings list fin_maps.

Set Warnings "-inexact-float".
Local Open Scope Z_scope.

(** ** Exceptions and the result monad *)

Module Py.

Inductive exn : Type :=
  | IndexError
  | KeyError (key : string)
  | ValueError.

(** [IndexError] and [KeyError] are the two subclasses of [LookupError]. *)
Definition LookupError (e : exn) : Prop :=
  match e with
  | IndexError | KeyError _ => True
  | ValueError => False
  end.

Inductive result (A : Type) : Type :=
  | Ok (a : A)
  | Raise (e : exn).
Arguments Ok {A} a.
Arguments Raise {A} e.

Global Instance result_ret : MRet result := λ A a, Ok a.

Global Instance result_bind : MBind result := λ A B k r,
  match r with
  | Ok a => k a
  | Raise e => Raise e
  end.

Global Instance result_fmap : FMap result := λ A B f r,
  match r with
  | Ok a => Ok (f a)
  | Raise e => Raise e
  end.

Definition raises {A} (r : result A) : Prop := ∃ e, r = Raise e.

Definition is_ok {A} (r : result A) : bool :=
  match r with Ok _ => true | Raise _ => false end.

End Py.
Import Py.

(** A [for] loop whose body may raise: the state is threaded through the
    elements in order and the first exception ends the loop. *)
Fixpoint for_each {A S : Type} (body : A → S → result S) (l : list A) (s : S)
    : result S :=
  match l with
  | [] => Ok s
  | a :: l' => s' ← body a s; for_each body l' s'
  end.

(** ** Python numbers *)

Inductive num : Type :=
  | Int (z : Z)
  | Float (f : float).

(** [float(z)] for an [int] of at most 63 bits, which covers every length and
    index of a list. *)
Definition float_of_int (z : Z) : float :=
  if z <? 0 then PrimFloat.opp (PrimFloat.of_uint63 (Uint63.of_Z (- z)))
  else PrimFloat.of_uint63 (Uint63.of_Z z).

Definition to_float (a : num) : float :=
  match a with
  | Int z => float_of_int z
  | Float f => f
  end.

Definition num_add (a b : num) : num :=
  match a, b with
  | Int x, Int y => Int (x + y)
  | _, _ => Float (PrimFloat.add (to_float a) (to_float b))
  end.

Definition num_sub (a b : num) : num :=
  match a, b with
  | Int x, Int y => Int (x - y)
  | _, _ => Float (PrimFloat.sub (to_float a) (to_float b))
  end.

Definition num_mul (a b : num) : num :=
  match a, b with
  | Int x, Int y => Int (x * y)
  | _, _ => Float (PrimFloat.mul (to_float a) (to_float b))
  end.

Definition num_neg (a : num) : num :=
  match a with
  | Int x => Int (- x)
  | Float f => Float (PrimFloat.opp f)
  end.

(** True division [a / b] by a non-zero divisor: always a [float]. The
    scripts divide a [float] by a small [int] only. *)
Definition num_div (a b : num) : num :=
  Float (PrimFloat.div (to_float a) (to_float b)).

(** [a == b] and [a < b]. *)
Definition num_eqb (a b : num) : bool :=
  match a, b with
  | Int x, Int y => x =? y
  | _, _ => PrimFloat.eqb (to_float a) (to_float b)
  end.

Definition num_ltb (a b : num) : bool :=
  match a, b with
  | Int x, Int y => x <? y
  | _, _ => PrimFloat.ltb (to_float a) (to_float b)
  end.

Declare Scope num_scope.
Delimit Scope num_scope with num.
Bind Scope num_scope with num.
Infix "+" := num_add : num_scope.
Infix "-" := num_sub : num_scope.
Infix "*" := num_mul : num_scope.
Infix "/" := num_div : num_scope.
Notation "- a" := (num_neg a) : num_scope.

(** ** chart_script.py: the nodes *)

Record node : Type := Node {
  id : string;
  label : string;
  level : Z;
  category : string;
  parent : option string;   (* the key is absent from the root's dictionary *)
}.

Global Instance node_eq_dec : EqDecision node.
Proof. solve_decision. Defined.

Definition nodes : list node := [
  Node "project" "project/" 0 "root" None;
  Node "claude" ".claude/" 1 "config" (Some "project");
  Node "workflows" "workflows/" 1 "process" (Some "project");
  Node "commands" "commands/" 1 "actions" (Some "project");
  Node "patterns" "patterns/" 1 "templates" (Some "project");
  Node "memory" "memory/" 1 "context" (Some "project");
  Node "shared" "shared/" 1 "utilities" (Some "project");
  Node "specialists" "specialists/" 2 "config" (Some "claude");
  Node "cognitive" "cognitive/" 3 "config" (Some "specialists");
  Node "technical" "technical/" 3 "config" (Some "specialists");
  Node "domain" "domain/" 3 "config" (Some "specialists");
  Node "orchestration_spec" "orchestration/" 3 "config" (Some "specialists");
  Node "development" "development/" 2 "process" (Some "workflows");
  Node "analysis" "analysis/" 2 "process" (Some "workflows");
  Node "operations" "operations/" 2 "process" (Some "workflows");
  Node "core" "core/" 2 "actions" (Some "commands");
  Node "specialized" "specialized/" 2 "actions" (Some "commands");
  Node "orchestration_cmd" "orchestration/" 2 "actions" (Some "commands");
  Node "architectural" "architectural/" 2 "templates" (Some "patterns");
  Node "development_pat" "development/" 2 "templates" (Some "patterns");
  Node "operational" "operational/" 2 "templates" (Some "patterns");
  Node "context" "context/" 2 "context" (Some "memory");
  Node "sessions" "sessions/" 2 "context" (Some "memory");
  Node "knowledge" "knowledge/" 2 "context" (Some "memory");
  Node "mcp-integration" "mcp-integration/" 2 "utilities" (Some "shared");
  Node "templates" "templates/" 2 "utilities" (Some "shared");
  Node "utilities" "utilities/" 2 "utilities" (Some "shared")
]%string.

Definition colors : list (string * string) := [
  ("root", "#13343B");
  ("config", "#4472C4");
  ("process", "#70AD47");
  ("actions", "#FF7F50");
  ("templates", "#9966CC");
  ("context", "#DC143C");
  ("utilities", "#5D878F")
]%string.

(** ** chart_script.py: the layout *)

Abbreviation position := (num * num)%type.
Abbreviation positions := (gmap string position).

(** [d[k]] on the positions dictionary. *)
Definition getitem (d : positions) (k : string) : result position :=
  match d !! k with
  | Some p => Ok p
  | None => Raise (KeyError k)
  end.

(** [node['parent']]. *)
Definition node_parent (n : node) : result string :=
  match parent n with
  | Some p => Ok p
  | None => Raise (KeyError "parent")
  end.

(** [l[0]]. *)
Definition first {A} (l : list A) : result A :=
  match l with
  | a :: _ => Ok a
  | [] => Raise IndexError
  end.

(** [l.index(x)]: the position of the first element equal to [x]. *)
Fixpoint list_index (x : node) (l : list node) : result nat :=
  match l with
  | [] => Raise ValueError
  | y :: l' =>
      if decide (y = x) then Ok 0%nat
      else i ← list_index x l'; Ok (S i)
  end.

(** [[n for n in nodes if n['level'] == k]]. *)
Definition at_level (k : Z) (ns : list node) : list node :=
  filter (λ n, level n = k) ns.

Definition len {A} (l : list A) : num := Int (Z.of_nat (length l)).

Definition level1_spacing : num := Float 4.5.

(** [start_x + i * level1_spacing] with
    [start_x = -(len(level1_nodes) - 1) * level1_spacing / 2]. *)
Definition level1_x (level1_nodes : list node) (i : nat) : num :=
  let start_x := (- (len level1_nodes - Int 1) * level1_spacing / Int 2)%num in
  (start_x + Int (Z.of_nat i) * level1_spacing)%num.

(** The level-1 loop, [for i, node in enumerate(level1_nodes)], started at
    index [i]. *)
Fixpoint place_level1 (level1_nodes : list node) (i : nat) (l : list node)
    (pos : positions) : positions :=
  match l with
  | [] => pos
  | n :: l' =>
      let x := level1_x level1_nodes i in
      let y := Float (-3.5) in
      place_level1 level1_nodes (S i) l' (<[id n := (x, y)]> pos)
  end.

(** [[n for n in level_nodes if n.get('parent') == parent_id]]. *)
Definition siblings_of (parent_id : string) (level_nodes : list node)
    : list node :=
  filter (λ n, parent n = Some parent_id) level_nodes.

(** The horizontal offset of the sibling at [sibling_index] among
    [siblings]. *)
Definition x_offset (sibling_spacing : num) (siblings : list node)
    (sibling_index : nat) : num :=
  if decide (length siblings = 1%nat) then Int 0
  else
    let start_offset :=
      (- (len siblings - Int 1) * sibling_spacing / Int 2)%num in
    (start_offset + Int (Z.of_nat sibling_index) * sibling_spacing)%num.

(** The body shared by the level-2 and the level-3 loops, which differ in
    the two constants only. *)
Definition place_child (sibling_spacing drop : num) (level_nodes : list node)
    (n : node) (pos : positions) : result positions :=
  parent_id ← node_parent n;
  parent_pos ← getitem pos parent_id;
  let siblings := siblings_of parent_id level_nodes in
  sibling_index ← list_index n siblings;
  let x := (parent_pos.1 + x_offset sibling_spacing siblings sibling_index)%num in
  let y := (parent_pos.2 - drop)%num in
  Ok (<[id n := (x, y)]> pos).

Definition place_level2 : list node → node → positions → result positions :=
  place_child (Float 1.8) (Float 3.5).

Definition place_level3 : list node → node → positions → result positions :=
  place_child (Float 1.5) (Float 3.0).

Definition create_hierarchical_layout (nodes : list node) : result positions :=
  root_node ← first (at_level 0 nodes);
  let pos := <[id root_node := (Int 0, Int 0)]> (∅ : positions) in
  let level1_nodes := at_level 1 nodes in
  let pos := place_level1 level1_nodes 0 level1_nodes pos in
  let level2_nodes := at_level 2 nodes in
  pos ← for_each (place_level2 level2_nodes) level2_nodes pos;
  let level3_nodes := at_level 3 nodes in
  pos ← for_each (place_level3 level3_nodes) level3_nodes pos;
  Ok pos.

(** [node_positions = create_hierarchical_layout(nodes)]. *)
Definition node_positions : result positions :=
  create_hierarchical_layout nodes.

(** ** chart_script.py: the figure *)

(** ASCII case conversion, which is what [str.upper] and [str.title] do on
    the ASCII names of the two scripts. *)
Definition is_lower (c : ascii) : bool :=
  let n := nat_of_ascii c in (97 <=? n)%nat && (n <=? 122)%nat.

Definition is_upper (c : ascii) : bool :=
  let n := nat_of_ascii c in (65 <=? n)%nat && (n <=? 90)%nat.

Definition upper_char (c : ascii) : ascii :=
  if is_lower c then ascii_of_nat (nat_of_ascii c - 32) else c.

Definition lower_char (c : ascii) : ascii :=
  if is_upper c then ascii_of_nat (nat_of_ascii c + 32) else c.

Fixpoint upper (s : string) : string :=
  match s with
  | EmptyString => EmptyString
  | String c s' => String (upper_char c) (upper s')
  end.

(** [s.title()]: a letter is upper-cased when it starts a run of letters and
    lower-cased inside one. *)
Fixpoint title_from (in_word : bool) (s : string) : string :=
  match s with
  | EmptyString => EmptyString
  | String c s' =>
      if is_lower c || is_upper c then
        String (if in_word then lower_char c else upper_char c)
               (title_from true s')
      else String c (title_from false s')
  end.

Definition title : string → string := title_from false.

Module go.

(** The arguments of [go.Scatter] that the script sets. *)
Record Scatter : Type := {
  x : list num;
  y : list num;
  mode : string;
  line_color : option string;
  showlegend : option bool;
  marker_size : list Z;
  marker_color : option string;
  text : list string;
  name : option string;
}.

End go.

Abbreviation figure := (list go.Scatter).

Definition line_trace (parent_pos child_pos : position) : go.Scatter := {|
  go.x := [parent_pos.1; child_pos.1];
  go.y := [parent_pos.2; child_pos.2];
  go.mode := "lines";
  go.line_color := Some "#CCCCCC"%string;
  go.showlegend := Some false;
  go.marker_size := [];
  go.marker_color := None;
  go.text := [];
  go.name := None;
|}.

(** The body of the edge loop; [fig.add_trace] appends to the figure. *)
Definition add_edge (node_positions : positions) (n : node) (fig : figure)
    : result figure :=
  match parent n with
  | Some parent_id =>
      child_pos ← getitem node_positions (id n);
      parent_pos ← getitem node_positions parent_id;
      Ok (fig ++ [line_trace parent_pos child_pos])
  | None => Ok fig
  end.

Definition marker_size_of (n : node) : Z :=
  if decide (level n = 0) then 40
  else if decide (level n = 1) then 28
  else 22.

(** [colors[category]]. *)
Fixpoint color_of (colors : list (string * string)) (category : string)
    : result string :=
  match colors with
  | [] => Raise (KeyError category)
  | (k, v) :: colors' =>
      if decide (k = category) then Ok v else color_of colors' category
  end.

(** The body of the category loop. *)
Definition add_markers (node_positions : positions) (nodes : list node)
    (colors : list (string * string)) (cat : string) (fig : figure)
    : result figure :=
  let category_nodes := filter (λ n, category n = cat) nodes in
  match category_nodes with
  | [] => Ok fig
  | _ =>
      x_coords ← mapM (λ n, p ← getitem node_positions (id n); Ok p.1)
                      category_nodes;
      y_coords ← mapM (λ n, p ← getitem node_positions (id n); Ok p.2)
                      category_nodes;
      let labels := label <$> category_nodes in
      let marker_sizes := marker_size_of <$> category_nodes in
      color ← color_of colors cat;
      Ok (fig ++ [ {|
        go.x := x_coords;
        go.y := y_coords;
        go.mode := "markers+text";
        go.line_color := None;
        go.showlegend := None;
        go.marker_size := marker_sizes;
        go.marker_color := Some color;
        go.text := labels;
        go.name := Some (title cat);
      |} ])
  end.

(** The traces of the figure, in the order they are added: the edge loop,
    then the category loop. The cosmetic layout settings and the write of
    the image file are plotly's and are left out. *)
Definition draw (nodes : list node) (colors : list (string * string))
    (node_positions : positions) : result figure :=
  fig ← for_each (add_edge node_positions) nodes [];
  for_each (add_markers node_positions nodes colors) colors.*1 fig.

Definition chart_script : result figure :=
  node_positions ← node_positions;
  draw nodes colors node_positions.

(** A trace drawn with [mode='lines']. *)
Definition is_line (t : go.Scatter) : Prop := go.mode t = "lines"%string.

Global Instance is_line_dec t : Decision (is_line t).
Proof. unfold is_line. apply _. Defined.

(** ['parent' in node]. *)
Definition has_parent (n : node) : Prop := is_Some (parent n).

Global Instance has_parent_dec n : Decision (has_parent n).
Proof. unfold has_parent. apply _. Defined.

(** ** script.py: the printed analysis *)

Module Report.

(** The values of a [structure] dictionary: a string or a list of strings. *)
Inductive value : Type :=
  | Str (s : string)
  | Strs (l : list string).

(** The dictionary kept for each system. *)
Record details : Type := Details {
  strengths : list string;
  structure : list (string * value);
}.

Definition systems_analysis : list (string * details) := [
  ("claude_flow", Details
    [ "17 specialized SPARC development modes";
      "Multi-agent orchestration with BatchTool";
      "Memory sharing and coordination";
      "Command-based interface with clear workflows";
      "Swarm mode for parallel execution" ]
    [ ("commands", Strs ["sparc"; "swarm"; "agent"; "memory"; "task"]);
      ("modes", Strs ["architect"; "coder"; "tdd"; "security"; "devops";
                      "integration"]);
      ("organization", Str "Command-driven with mode specialization") ]);
  ("superclaude", Details
    [ "9 cognitive personas as universal flags";
      "19 specialized commands covering full dev lifecycle";
      "Token optimization with @include template system";
      "Evidence-based methodology";
      "Modular configuration with shared patterns" ]
    [ ("personas", Strs ["architect"; "frontend"; "backend"; "security";
                         "analyzer"; "qa"; "performance"; "refactorer";
                         "mentor"]);
      ("commands", Strs ["build"; "analyze"; "troubleshoot"; "deploy"; "scan";
                         "test"; "review"]);
      ("organization", Str "Persona-driven with flag inheritance") ]);
  ("best_agents", Details
    [ "Role-based specialization (CrewAI)";
      "Task delegation and collaboration";
      "State management and memory";
      "Flexible orchestration patterns";
      "Multi-framework integration" ]
    [ ("roles", Strs ["researcher"; "analyst"; "writer"; "reviewer";
                      "manager"]);
      ("organization", Str "Hierarchical with delegation");
      ("coordination", Str "Manager-worker patterns") ])
]%string.

Definition newline : string := String (ascii_of_nat 10) EmptyString.

(** [print(s)] on a standard output that holds [out]. *)
Definition print (s : string) (out : string) : string :=
  (out ++ s ++ newline)%string.

(** [d[k]] on a [structure] dictionary. *)
Fixpoint getitem (d : list (string * value)) (k : string) : result value :=
  match d with
  | [] => Raise (KeyError k)
  | (k', v) :: d' => if decide (k' = k) then Ok v else getitem d' k
  end.

Definition join (sep : string) (l : list string) : string :=
  match l with
  | [] => EmptyString
  | s :: l' => foldl (λ acc t, acc ++ sep ++ t)%string s l'
  end.

(** The text an f-string puts for a value: a string as it is, a list as its
    [repr] (of strings that need no escaping). *)
Definition format (v : value) : string :=
  match v with
  | Str s => s
  | Strs l => ("[" ++ join ", " ((λ s, "'" ++ s ++ "'") <$> l) ++ "]")%string
  end.

Definition header (system : string) : string :=
  (upper system ++ " ANALYSIS:")%string.

Definition bullet (strength : string) : string :=
  ("  â€¢ " ++ strength)%string.

(** The body of the loop over [systems_analysis.items()]. *)
Definition print_system (entry : string * details) (out : string)
    : result string :=
  let '(system, details) := entry in
  let out := print (newline ++ header system) out in
  let out := print "Strengths:" out in
  let out := foldl (λ out strength, print (bullet strength) out) out
                   (strengths details) in
  organization ← getitem (structure details) "organization";
  Ok (print ("Organization: " ++ format organization) out).

Definition script : result string :=
  for_each print_system systems_analysis EmptyString.

(** The lines of a text, as [str.splitlines] gives them. *)
Fixpoint splitlines_from (line : string) (s : string) : list string :=
  match s with
  | EmptyString => if decide (line = EmptyString) then [] else [line]
  | String c s' =>
      if Ascii.eqb c (ascii_of_nat 10) then line :: splitlines_from EmptyString s'
      else splitlines_from (line ++ String c EmptyString) s'
  end.

Definition splitlines : string → list string := splitlines_from EmptyString.

End Report.

(** ** Vocabulary of the statements *)

(** The levels at which [create_hierarchical_layout] places nodes. *)
Definition positioned_level (k : Z) : Prop := 0 ≤ k ≤ 3.

Global Instance positioned_level_dec k : Decision (positioned_level k).
Proof. unfold positioned_level. apply _. Defined.

(** Every key of [pos] is the id of a node of [ns] at a positioned level. *)
Definition placed_from (ns : list node) (pos : positions) : Prop :=
  ∀ k, is_Some (pos !! k) →
    ∃ n, n ∈ ns ∧ id n = k ∧ positioned_level (level n).

(** The [parent] of [n] names an id that no node of [ns] has. *)
Definition dangling (ns : list node) (n : node) : Prop :=
  ∃ p, parent n = Some p ∧ p ∉ id <$> ns.

(** A root and a level-1 node under a parent that does not exist. *)
Definition orphan_nodes : list node := [
  Node "project" "project/" 0 "root" None;
  Node "orphan" "orphan/" 1 "config" (Some "ghost")
]%string.

(** [ns] with the [parent] of every level-1 node replaced by what [f]
    gives. *)
Definition reparent (f : node → option string) (n : node) : node :=
  if decide (level n = 1)
  then Node (id n) (label n) (level n) (category n) (f n)
  else n.

(** The positions of the sample, once the layout is known to return. *)
Definition sample_positions : positions :=
  match node_positions with
  | Ok pos => pos
  | Raise _ => ∅
  end.

(** The sibling group of [p] at level [k]: the nodes the level-[k] loop
    collects in [siblings] for a child of [p]. *)
Definition group (k : Z) (p : string) : list node :=
  siblings_of p (at_level k nodes).

(** [[positions[n['id']][0] for n in g]]. *)
Definition xs_of (pos : positions) (g : list node) : option (list num) :=
  mapM (λ n, fst <$> pos !! id n) g.

(** The horizontal offsets the source's formulas give to the members of a
    group, in order: the level-1 loop's [x] (the root is at [0]) and the
    [x_offset] of the level-2 and level-3 loops. *)
Definition sibling_offsets (k : Z) (g : list node) : list num :=
  (if decide (k = 1) then level1_x g
   else x_offset (if decide (k = 2) then Float 1.8 else Float 1.5) g)
  <$> seq 0 (length g).

(** A list of numbers that is its own negation read backwards, so that its
    multiset is closed under negation. *)
Definition neg_closed (l : list num) : Prop :=
  Forall2 (λ a b, num_eqb a (- b)%num = true) l (reverse l).

Global Instance neg_closed_dec l : Decision (neg_closed l).
Proof. unfold neg_closed. apply _. Defined.

(** [sum(l) / len(l)]. *)
Definition mean (l : list num) : num :=
  (foldl num_add (Int 0) l / len l)%num.

(** Each [x] is [px + off] for the offset at the same index. *)
Definition offsets_from (px : num) (xs offs : list num) : Prop :=
  Forall2 (λ x off, num_eqb x (px + off)%num = true) xs offs.

Global Instance offsets_from_dec px xs offs : Decision (offsets_from px xs offs).
Proof. unfold offsets_from. apply _. Defined.

(** The trace [t] is the segment from the position of the parent of [n] to
    the position of [n]. *)
Definition connects (pos : positions) (n : node) (t : go.Scatter) : Prop :=
  ∃ p cp pp, parent n = Some p ∧ pos !! id n = Some cp ∧ pos !! p = Some pp ∧
    is_line t ∧ go.x t = [pp.1; cp.1] ∧ go.y t = [pp.2; cp.2].

(** [n] is lower on the page than [m]. *)
Definition below (pos : positions) (n m : node) : Prop :=
  match pos !! id n, pos !! id m with
  | Some pn, Some pm => num_ltb pn.2 pm.2 = true
  | _, _ => False
  end.

Global Instance below_dec pos n m : Decision (below pos n m).
Proof. unfold below. destruct (pos !! id n), (pos !! id m); apply _. Defined.

(** The vertical step from the parent of [n] down to [n] is [step]. *)
Definition drops_by (pos : positions) (n : node) (step : num) : Prop :=
  match parent n with
  | Some p =>
      match pos !! id n, pos !! p with
      | Some pn, Some pp => num_eqb (pp.2 - pn.2)%num step = true
      | _, _ => False
      end
  | None => True
  end.

Global Instance drops_by_dec pos n step : Decision (drops_by pos n step).
Proof.
  unfold drops_by. destruct (parent n) as [p|]; [|apply _].
  destruct (pos !! id n), (pos !! p); apply _.
Defined.

(** The step the loop of level [k] subtracts from the parent's [y]. *)
Definition level_drop (k : Z) : num :=
  if decide (k = 3) then Float 3.0 else Float 3.5.

(** [n] has the same [x] as its parent. *)
Definition under_parent (pos : positions) (n : node) : Prop :=
  match parent n with
  | Some p =>
      match pos !! id n, pos !! p with
      | Some pn, Some pp => num_eqb pn.1 pp.1 = true
      | _, _ => False
      end
  | None => False
  end.

Global Instance under_parent_dec pos n : Decision (under_parent pos n).
Proof.
  unfold under_parent. destruct (parent n) as [p|]; [|apply _].
  destruct (pos !! id n), (pos !! p); apply _.
Defined.

(** [n] is the only member of its sibling group. *)
Definition sole_child (n : node) : Prop :=
  match parent n with
  | Some p => length (group (level n) p) = 1%nat
  | None => False
  end.

Global Instance sole_child_dec n : Decision (sole_child n).
Proof. unfold sole_child. destruct (parent n); apply _. Defined.

(** The group of [p] at level [k] is laid out symmetrically around [p]:
    every member is at the parent's [x] plus the offset the source computes
    for it, these offsets are closed under negation, and the mean of the
    members' [x] is the parent's [x]. *)
Definition symmetric_about (pos : positions) (k : Z) (p : string) : Prop :=
  match pos !! p, xs_of pos (group k p) with
  | Some pp, Some xs =>
      offsets_from pp.1 xs (sibling_offsets k (group k p)) ∧
      neg_closed (sibling_offsets k (group k p)) ∧
      num_eqb (mean xs) pp.1 = true
  | _, _ => False
  end.

Global Instance symmetric_about_dec pos k p : Decision (symmetric_about pos k p).
Proof.
  unfold symmetric_about. destruct (pos !! p), (xs_of pos (group k p)); apply _.
Defined.

(** The sibling group of [n], when it has more than one member, is
    symmetric about the parent of [n]. *)
Definition symmetric_group_of (pos : positions) (n : node) : Prop :=
  match parent n with
  | Some p =>
      (1 < length (group (level n) p))%nat → symmetric_about pos (level n) p
  | None => True
  end.

Global Instance symmetric_group_of_dec pos n :
  Decision (symmetric_group_of pos n).
Proof. unfold symmetric_group_of. destruct (parent n); apply _. Defined.

(** The ids of a node list, as a set. *)
Definition id_set (l : list node) : gset string := list_to_set (id <$> l).

(** The trace [t] shows the nodes of category [cat]: one marker for each,
    in the order of the node list, at the node's position, with its label
    and the size of its level, in the colour and under the name of the
    category. *)
Definition marks (pos : positions) (ns : list node)
    (cs : list (string * string)) (cat : string) (t : go.Scatter) : Prop :=
  let category_nodes := filter (λ n, category n = cat) ns in
  ¬ is_line t ∧
  Forall2 (λ n x, ∃ p, pos !! id n = Some p ∧ x = p.1) category_nodes (go.x t) ∧
  Forall2 (λ n y, ∃ p, pos !! id n = Some p ∧ y = p.2) category_nodes (go.y t) ∧
  go.text t = label <$> category_nodes ∧
  go.marker_size t = marker_size_of <$> category_nodes ∧
  (∃ c, color_of cs cat = Ok c ∧ go.marker_color t = Some c) ∧
  go.name t = Some (title cat).

(** Some node of [ns] has category [cat]. *)
Definition has_category (ns : list node) (cat : string) : Prop :=
  Exists (λ n, category n = cat) ns.

Global Instance has_category_dec ns cat : Decision (has_category ns cat).
Proof. unfold has_category. apply _. Defined.



(** [n] with another label and another category. *)
Definition relabel (f g : node → string) (n : node) : node :=
  Node (id n) (f n) (level n) (g n) (parent n).

(** * Properties *)

(** ** The result monad and the small list operations *)

Lemma bind_Ok {A B} (r : result A) (k : A → result B) b :
  r ≫= k = Ok b ↔ ∃ a, r = Ok a ∧ k a = Ok b.
Proof.
  destruct r as [a|e]; unfold mbind, result_bind; split.
  - intros H. by exists a.
  - by intros (a' & [= <-] & H).
  - done.
  - by intros (a' & [=] & _).
Qed.

Lemma bind_Raise {A B} (r : result A) (k : A → result B) e :
  r ≫= k = Raise e ↔ r = Raise e ∨ ∃ a, r = Ok a ∧ k a = Raise e.
Proof.
  destruct r as [a|e']; unfold mbind, result_bind; split.
  - intros H. right. by exists a.
  - intros [H|(a' & H1 & H)]; [discriminate|]. by injection H1 as <-.
  - intros [= ->]. by left.
  - intros [[= ->]|(a' & H1 & _)]; [done|discriminate].
Qed.

Lemma getitem_Ok (pos : positions) k p :
  getitem pos k = Ok p ↔ pos !! k = Some p.
Proof. unfold getitem. destruct (pos !! k); split; congruence. Qed.

Lemma node_parent_Ok n p : node_parent n = Ok p ↔ parent n = Some p.
Proof. unfold node_parent. destruct (parent n); split; congruence. Qed.

Lemma first_Ok {A} (l : list A) a : first l = Ok a → a ∈ l.
Proof. destruct l; intros [= <-]. by left. Qed.

Lemma first_Raise {A} (l : list A) e : first l = Raise e → e = IndexError.
Proof. by destruct l; intros [= <-]. Qed.

Lemma list_index_elem_of n l : n ∈ l → ∃ i, list_index n l = Ok i.
Proof.
  induction l as [|m l IH]; [by intros ?%elem_of_nil|].
  intros Hn. simpl. destruct (decide (m = n)); [by eexists|].
  apply elem_of_cons in Hn as [->|Hn]; [done|].
  destruct (IH Hn) as [i ->]. by eexists.
Qed.

Lemma elem_of_at_level k ns n : n ∈ at_level k ns ↔ level n = k ∧ n ∈ ns.
Proof. unfold at_level. by rewrite list_elem_of_filter. Qed.

Lemma at_level_positioned k ns :
  positioned_level k →
  at_level k (filter (λ n, positioned_level (level n)) ns) = at_level k ns.
Proof.
  intros Hk. unfold at_level. rewrite list_filter_filter.
  apply list_filter_iff. intros n. split; [by intros [? _]|].
  by intros ->.
Qed.

(** ** The keys of the positions dictionary *)

Section placed.
Context (ns : list node).

Lemma placed_from_insert pos n p :
  n ∈ ns → positioned_level (level n) → placed_from ns pos →
  placed_from ns (<[id n := p]> pos).
Proof.
  intros Hn Hl Hpos k. destruct (decide (id n = k)) as [<-|Hne].
  - intros _. by exists n.
  - rewrite lookup_insert_ne by done. apply Hpos.
Qed.

Lemma placed_from_root root :
  root ∈ at_level 0 ns →
  placed_from ns (<[id root := (Int 0, Int 0)]> (∅ : positions)).
Proof.
  intros [Hl Hn]%elem_of_at_level. apply placed_from_insert; [done|..].
  - unfold positioned_level. lia.
  - intros k [? Hk]. by rewrite lookup_empty in Hk.
Qed.

Lemma place_level1_placed L i l pos :
  Forall (λ n, n ∈ ns ∧ level n = 1) l → placed_from ns pos →
  placed_from ns (place_level1 L i l pos).
Proof.
  intros Hl. revert i pos.
  induction Hl as [|n l [Hn Hlev] _ IH]; intros i pos Hpos; simpl; [done|].
  apply IH, placed_from_insert; [done| |done].
  unfold positioned_level. lia.
Qed.

Lemma place_level1_at_level pos :
  placed_from ns pos →
  placed_from ns (place_level1 (at_level 1 ns) 0 (at_level 1 ns) pos).
Proof.
  apply place_level1_placed, Forall_forall.
  by intros n [-> Hn]%elem_of_at_level.
Qed.

Lemma at_level_Forall k :
  positioned_level k →
  Forall (λ n, n ∈ ns ∧ positioned_level (level n)) (at_level k ns).
Proof.
  intros Hk. apply Forall_forall. by intros n [-> Hn]%elem_of_at_level.
Qed.
End placed.

(** ** The loops of levels 2 and 3 *)

Section place_loop.
Context (sibling_spacing drop : num) (level_nodes ns : list node).

Local Abbreviation place := (place_child sibling_spacing drop level_nodes).

(** What one successful step does. *)
Lemma place_child_Ok n pos pos' :
  place n pos = Ok pos' →
  ∃ p pp i, parent n = Some p ∧ pos !! p = Some pp ∧
    list_index n (siblings_of p level_nodes) = Ok i ∧
    pos' = <[id n :=
              ((pp.1 + x_offset sibling_spacing
                                (siblings_of p level_nodes) i)%num,
               (pp.2 - drop)%num)]> pos.
Proof.
  unfold place_child.
  intros (p & Hp%node_parent_Ok & (pp & Hpp%getitem_Ok & H)%bind_Ok)%bind_Ok.
  apply bind_Ok in H as (i & Hi & [= <-]). by exists p, pp, i.
Qed.

(** A step on a node of the level's list raises lookup errors only:
    [siblings.index(node)] finds the node. *)
Lemma place_child_Raise n pos e :
  n ∈ level_nodes → place n pos = Raise e → LookupError e.
Proof.
  unfold place_child, node_parent, getitem. intros HL H.
  destruct (parent n) as [p|] eqn:Hp; simpl in H; [|by injection H as <-].
  destruct (pos !! p) as [pp|]; simpl in H; [|by injection H as <-].
  destruct (list_index_elem_of n (siblings_of p level_nodes)) as [i Hi].
  { by apply list_elem_of_filter. }
  by rewrite Hi in H.
Qed.

Lemma place_child_dangling n pos :
  placed_from ns pos → dangling ns n → raises (place n pos).
Proof.
  intros Hpos (q & Hq & Hdang). unfold raises.
  destruct (place n pos) as [pos'|e] eqn:H; [|by eexists].
  apply place_child_Ok in H as (p & pp & i & Hp & Hpp & _).
  destruct (Hpos p) as (m & Hm & Hid & _); [by eexists|].
  destruct Hdang. replace q with p by congruence. subst p.
  by apply list_elem_of_fmap_2.
Qed.

Lemma place_child_placed n pos pos' :
  n ∈ ns → positioned_level (level n) → placed_from ns pos →
  place n pos = Ok pos' → placed_from ns pos'.
Proof.
  intros Hn Hl Hpos (p & pp & i & _ & _ & _ & ->)%place_child_Ok.
  by apply placed_from_insert.
Qed.

Lemma for_each_place_placed l pos pos' :
  Forall (λ n, n ∈ ns ∧ positioned_level (level n)) l →
  placed_from ns pos →
  for_each place l pos = Ok pos' → placed_from ns pos'.
Proof.
  intros Hl. revert pos.
  induction Hl as [|n l [Hn Hlev] _ IH]; intros pos Hpos; simpl.
  - by intros [= <-].
  - intros (pos1 & H1 & H2)%bind_Ok. eapply IH; [|done].
    by eapply place_child_placed.
Qed.

Lemma for_each_place_Raise l pos e :
  l ⊆ level_nodes → for_each place l pos = Raise e → LookupError e.
Proof.
  revert pos. induction l as [|n l IH]; intros pos Hsub; simpl; [done|].
  intros [H|(pos1 & _ & H)]%bind_Raise.
  - eapply place_child_Raise; [|done]. apply Hsub. by left.
  - eapply IH; [|done]. intros m Hm. apply Hsub. by right.
Qed.

(** A loop that goes over a node with a dangling parent raises, at that
    node if not before. *)
Lemma for_each_place_dangling l pos n :
  Forall (λ n, n ∈ ns ∧ positioned_level (level n)) l →
  placed_from ns pos → n ∈ l → dangling ns n →
  raises (for_each place l pos).
Proof.
  intros Hl. revert pos.
  induction Hl as [|m l [Hm Hlev] Hl IH]; intros pos Hpos Hn Hdang.
  { by apply elem_of_nil in Hn. }
  simpl. destruct (place m pos) as [pos1|e] eqn:H1; simpl; [|by eexists].
  apply elem_of_cons in Hn as [->|Hn].
  - destruct (place_child_dangling m pos Hpos Hdang) as [e He]. congruence.
  - apply IH; [|done..]. by eapply place_child_placed.
Qed.

Lemma for_each_place_lookup_ne l pos pos' k :
  k ∉ id <$> l → for_each place l pos = Ok pos' → pos' !! k = pos !! k.
Proof.
  revert pos. induction l as [|n l IH]; intros pos Hk; simpl.
  { by intros [= <-]. }
  rewrite fmap_cons in Hk. apply not_elem_of_cons in Hk as [Hne Hk].
  intros (pos1 & H1 & H2)%bind_Ok. rewrite (IH pos1) by done.
  apply place_child_Ok in H1 as (? & ? & ? & _ & _ & _ & ->).
  by rewrite lookup_insert_ne.
Qed.
End place_loop.

(** The keys of a layout are ids of nodes at the four positioned levels. *)
Lemma layout_placed_from ns pos :
  create_hierarchical_layout ns = Ok pos → placed_from ns pos.
Proof.
  unfold create_hierarchical_layout.
  intros (root & Hroot%first_Ok & (pos2 & H2 & H)%bind_Ok)%bind_Ok.
  apply bind_Ok in H as (pos3 & H3 & [= <-]).
  assert (positioned_level 2 ∧ positioned_level 3) as [??]
    by (unfold positioned_level; lia).
  eapply for_each_place_placed in H3; eauto using at_level_Forall.
  eapply for_each_place_placed in H2; eauto using at_level_Forall.
  by apply place_level1_at_level, placed_from_root.
Qed.

(** ** Dangling parents *)

(** C1, as stated, fails: a level-1 node whose parent names no node is laid
    out all the same, under the root, and the layout returns. *)
Lemma level1_dangling_parent_completes :
  (∃ n, n ∈ orphan_nodes ∧ dangling orphan_nodes n) ∧
  create_hierarchical_layout orphan_nodes =
    Ok (<["orphan" := (Float 0, Float (-3.5))]>
         (<["project" := (Int 0, Int 0)]> ∅)).
Proof.
  split; [|vm_compute; reflexivity].
  exists (Node "orphan" "orphan/" 1 "config" (Some "ghost")).
  split; [by right; left|]. exists "ghost"%string. split; [done|].
  by intros [?|[?|?%elem_of_nil]%elem_of_cons]%elem_of_cons.
Qed.

(** C1, amended: for every node list in which some node of level 2 or 3 has
    a parent that names no node of the list, the layout raises a lookup
    error ([IndexError] or [KeyError]) and returns no positions. *)
Theorem dangling_parent_below_level1_raises ns n :
  n ∈ ns → level n = 2 ∨ level n = 3 → dangling ns n →
  ∃ e, create_hierarchical_layout ns = Raise e ∧ LookupError e.
Proof.
  intros Hn Hlev Hdang.
  assert (positioned_level 2 ∧ positioned_level 3) as [??]
    by (unfold positioned_level; lia).
  unfold create_hierarchical_layout.
  destruct (first (at_level 0 ns)) as [root|e] eqn:Hroot; simpl.
  2: { apply first_Raise in Hroot as ->. by exists IndexError. }
  apply first_Ok, placed_from_root, place_level1_at_level in Hroot.
  set (pos1 := place_level1 _ _ _ _) in *.
  destruct (for_each _ (at_level 2 ns) pos1) as [pos2|e] eqn:H2; simpl.
  2: { exists e. split; [done|]. by eapply for_each_place_Raise. }
  destruct Hlev as [Hlev|Hlev].
  { destruct (for_each_place_dangling (Float 1.8) (Float 3.5) (at_level 2 ns)
      ns (at_level 2 ns) pos1 n) as [e He]; auto using at_level_Forall.
    - by apply elem_of_at_level.
    - unfold place_level2 in H2. congruence. }
  eapply for_each_place_placed in H2 as Hpos2; eauto using at_level_Forall.
  destruct (for_each_place_dangling (Float 1.5) (Float 3.0) (at_level 3 ns)
    ns (at_level 3 ns) pos2 n) as [e He]; auto using at_level_Forall.
  { by apply elem_of_at_level. }
  exists e. unfold place_level3. rewrite He. split; [done|].
  by eapply for_each_place_Raise.
Qed.

Lemma dangling_parent_below_level1_raises_witness :
  let ns := [Node "project" "project/" 0 "root" None;
             Node "docs" "docs/" 2 "config" (Some "ghost")]%string in
  ∃ e, create_hierarchical_layout ns = Raise e ∧ LookupError e.
Proof.
  intros ns.
  apply (dangling_parent_below_level1_raises ns
           (Node "docs" "docs/" 2 "config" (Some "ghost"))).
  - by right; left.
  - by left.
  - exists "ghost"%string. split; [done|].
    by intros [?|[?|?%elem_of_nil]%elem_of_cons]%elem_of_cons.
Defined.

(** ** Levels that are not positioned *)

(** C10: the layout only positions nodes of level 0, 1, 2 or 3. The nodes of
    any other level play no part in it (dropping them from the list changes
    neither the returned mapping nor an exception), and the returned mapping
    has no entry for such a node, unless a node of a positioned level has the
    same id. *)
Theorem unpositioned_levels_omitted ns :
  create_hierarchical_layout (filter (λ n, positioned_level (level n)) ns)
    = create_hierarchical_layout ns ∧
  ∀ pos n, create_hierarchical_layout ns = Ok pos →
    n ∈ ns → ¬ positioned_level (level n) →
    (∀ m, m ∈ ns → positioned_level (level m) → id m ≠ id n) →
    pos !! id n = None.
Proof.
  split.
  - unfold create_hierarchical_layout.
    by rewrite !at_level_positioned by (unfold positioned_level; lia).
  - intros pos n Hpos%layout_placed_from Hn Hlev Hid.
    apply eq_None_not_Some. intros (m & Hm & Hmn & Hmlev)%Hpos.
    by apply (Hid m).
Qed.

(** ** Level 1 never reads [parent] *)

Lemma level_reparent f n : level (reparent f n) = level n.
Proof. unfold reparent. by case_decide. Qed.

Lemma id_reparent f n : id (reparent f n) = id n.
Proof. unfold reparent. by case_decide. Qed.

Lemma at_level_reparent f k ns :
  at_level k (reparent f <$> ns) = reparent f <$> at_level k ns.
Proof.
  unfold at_level. induction ns as [|n ns IH]; [done|].
  rewrite fmap_cons, !filter_cons, level_reparent.
  case_decide; by rewrite ?fmap_cons, IH.
Qed.

Lemma reparent_other f k ns :
  k ≠ 1 → reparent f <$> at_level k ns = at_level k ns.
Proof.
  intros Hk. rewrite <-(list_fmap_id (at_level k ns)) at 2.
  apply list_fmap_ext. intros i n Hn%list_elem_of_lookup_2.
  apply elem_of_at_level in Hn as [Hn _]. unfold reparent.
  case_decide; [congruence|done].
Qed.

Lemma place_level1_reparent f L i l pos :
  place_level1 (reparent f <$> L) i (reparent f <$> l) pos =
  place_level1 L i l pos.
Proof.
  revert i pos. induction l as [|n l IH]; intros i pos; [done|].
  rewrite fmap_cons. simpl. rewrite IH, id_reparent.
  unfold level1_x, len. by rewrite length_fmap.
Qed.

Lemma first_reparent f l : first (reparent f <$> l) = reparent f <$> first l.
Proof. by destruct l. Qed.

Lemma place_level1_lookup_ne L i l pos k :
  k ∉ id <$> l → place_level1 L i l pos !! k = pos !! k.
Proof.
  revert i pos. induction l as [|n l IH]; intros i pos Hk; [done|].
  rewrite fmap_cons in Hk. apply not_elem_of_cons in Hk as [Hne Hk].
  simpl. rewrite IH by done. by rewrite lookup_insert_ne.
Qed.

Lemma place_level1_lookup L i l pos j n :
  NoDup (id <$> l) → l !! j = Some n →
  place_level1 L i l pos !! id n
    = Some (level1_x L (i + j), Float (-3.5)).
Proof.
  revert i j pos. induction l as [|m l IH]; intros i j pos Hnd Hj; [done|].
  rewrite fmap_cons in Hnd. apply NoDup_cons in Hnd as [Hm Hnd].
  destruct j as [|j]; simpl in *.
  - injection Hj as ->. rewrite place_level1_lookup_ne by done.
    by rewrite lookup_insert_eq, Nat.add_0_r.
  - rewrite (IH (S i) j) by done. by rewrite Nat.add_succ_r.
Qed.

Lemma NoDup_ids_at_level k ns :
  NoDup (id <$> ns) → NoDup (id <$> at_level k ns).
Proof.
  intros Hnd. eapply sublist_NoDup; [done|].
  apply fmap_sublist, sublist_filter.
Qed.

Lemma id_not_at_other_level k ns n :
  NoDup (id <$> ns) → n ∈ ns → level n ≠ k → id n ∉ id <$> at_level k ns.
Proof.
  induction ns as [|m ns IH]; intros Hnd Hn Hlev; [by apply elem_of_nil in Hn|].
  rewrite fmap_cons in Hnd. apply NoDup_cons in Hnd as [Hm Hnd].
  unfold at_level. rewrite filter_cons. fold (at_level k ns).
  apply elem_of_cons in Hn as [->|Hn].
  - rewrite decide_False by done.
    intros (m' & Hid & [_ Hm']%elem_of_at_level)%list_elem_of_fmap.
    apply Hm. rewrite Hid. by apply list_elem_of_fmap_2.
  - case_decide; [|by apply IH]. rewrite fmap_cons.
    apply not_elem_of_cons. split; [|by apply IH].
    intros Hid. apply Hm. rewrite <-Hid. by apply list_elem_of_fmap_2.
Qed.

(** C9: the level-1 placement never reads [parent]. Replacing the parents
    of the level-1 nodes by anything, an id that no node has or no parent at
    all, changes neither the returned mapping nor an exception; and when the
    layout returns and ids are unique, the level-1 node at index [i] of the
    level-1 list is at [(start_x + i * level1_spacing, -3.5)]. *)
Theorem level1_placement_ignores_parent :
  (∀ f ns, create_hierarchical_layout (reparent f <$> ns)
            = create_hierarchical_layout ns) ∧
  (∀ ns pos i n, create_hierarchical_layout ns = Ok pos →
     NoDup (id <$> ns) → at_level 1 ns !! i = Some n →
     pos !! id n = Some (level1_x (at_level 1 ns) i, Float (-3.5))).
Proof.
  split.
  - intros f ns. unfold create_hierarchical_layout.
    rewrite !at_level_reparent, first_reparent.
    rewrite !(reparent_other f) by done.
    destruct (first (at_level 0 ns)) as [root|]; [|done]. simpl.
    by rewrite place_level1_reparent, id_reparent.
  - intros ns pos i n Hpos Hnd Hi. unfold create_hierarchical_layout in Hpos.
    apply bind_Ok in Hpos as (root & _ & (pos2 & H2 & H)%bind_Ok).
    apply bind_Ok in H as (pos3 & H3 & [= <-]).
    apply list_elem_of_lookup_2 in Hi as Hn.
    apply elem_of_at_level in Hn as [Hlev Hn].
    assert ((id n ∉ id <$> at_level 2 ns) ∧ (id n ∉ id <$> at_level 3 ns))
      as [Hk2 Hk3] by (split; apply id_not_at_other_level; auto; lia).
    rewrite (for_each_place_lookup_ne _ _ _ _ _ _ _ Hk3 H3).
    rewrite (for_each_place_lookup_ne _ _ _ _ _ _ _ Hk2 H2).
    apply (place_level1_lookup _ 0%nat); [|done].
    by apply NoDup_ids_at_level.
Qed.

(** ** The sample node list *)

Lemma node_positions_ok : node_positions = Ok sample_positions.
Proof.
  assert (is_ok node_positions = true) as Hok by (vm_compute; reflexivity).
  unfold sample_positions. by destruct node_positions.
Qed.

(** A decidable property holds of every sample node when its evaluation
    over the list says so. *)
Lemma sample_nodes_ind (P : node → Prop) `{∀ n, Decision (P n)} :
  bool_decide (Forall P nodes) = true → ∀ n, n ∈ nodes → P n.
Proof. intros Hall%bool_decide_eq_true. by apply Forall_forall. Qed.

Lemma elem_of_group k p n :
  n ∈ group k p ↔ parent n = Some p ∧ level n = k ∧ n ∈ nodes.
Proof.
  unfold group, siblings_of, at_level. by rewrite !list_elem_of_filter.
Qed.

Lemma x_offset_single sp g i : length g = 1%nat → x_offset sp g i = Int 0.
Proof. intros Hg. unfold x_offset. by rewrite decide_True. Qed.

Lemma unpositioned_levels_omitted_witness :
  let ns := [Node "project" "project/" 0 "root" None;
             Node "deep" "deep/" 5 "config" (Some "project")]%string in
  create_hierarchical_layout ns
    = Ok (<["project" := (Int 0, Int 0)]> ∅) ∧
  ∀ pos, create_hierarchical_layout ns = Ok pos → pos !! "deep" = None.
Proof.
  intros ns. destruct (unpositioned_levels_omitted ns) as [Hsame Hnone].
  split; [by rewrite <-Hsame|]. intros pos Hpos.
  apply (Hnone pos (Node "deep" "deep/" 5 "config" (Some "project")) Hpos).
  - by right; left.
  - unfold positioned_level. simpl. lia.
  - intros m [->|[->|?%elem_of_nil]%elem_of_cons]%elem_of_cons; try done.
    unfold positioned_level. simpl. lia.
Defined.

Lemma level1_placement_ignores_parent_witness :
  create_hierarchical_layout (reparent (λ _, Some "ghost") <$> nodes)
    = create_hierarchical_layout nodes ∧
  sample_positions !! "commands" = Some (Float (-2.25), Float (-3.5)).
Proof.
  destruct level1_placement_ignores_parent as [Hsame Hat]. split.
  - apply Hsame.
  - apply (Hat nodes sample_positions 2%nat
             (Node "commands" "commands/" 1 "actions" (Some "project"))).
    + apply node_positions_ok.
    + apply (bool_decide_unpack _); vm_compute; exact I.
    + reflexivity.
Defined.

(** C7: in the sample every node but the root names as its parent the id of
    a node of the list, and that node is exactly one level up. *)
Theorem sample_parents_resolve :
  ∃ root, first (at_level 0 nodes) = Ok root ∧
    ∀ n, n ∈ nodes → n ≠ root →
      ∃ m, m ∈ nodes ∧ parent n = Some (id m) ∧ level m = level n - 1.
Proof.
  exists (Node "project" "project/" 0 "root" None). split; [done|].
  intros n Hn Hne.
  cut (Exists (λ m, parent n = Some (id m) ∧ level m = level n - 1) nodes).
  { intros (m & ? & ? & ?)%Exists_exists. by exists m. }
  revert n Hn Hne.
  apply (sample_nodes_ind (λ n, n ≠ _ → Exists _ nodes)).
  vm_compute; reflexivity.
Qed.

Lemma sample_parents_resolve_witness :
  ∃ m, m ∈ nodes ∧ Some "specialists"%string = Some (id m) ∧ level m = 2.
Proof.
  destruct sample_parents_resolve as (root & Hroot & Hall).
  apply (Hall (Node "cognitive" "cognitive/" 3 "config" (Some "specialists"))).
  - apply (bool_decide_unpack _); vm_compute; exact I.
  - intros Heq. subst root. vm_compute in Hroot. discriminate Hroot.
Defined.

(** C2: in the sample, of two nodes the one at the greater level has the
    strictly smaller [y]. *)
Theorem lower_level_is_lower_on_page :
  ∃ pos, node_positions = Ok pos ∧
    ∀ n m, n ∈ nodes → m ∈ nodes → level m < level n →
      ∃ pn pm, pos !! id n = Some pn ∧ pos !! id m = Some pm ∧
        num_ltb pn.2 pm.2 = true.
Proof.
  exists sample_positions. split; [apply node_positions_ok|].
  intros n m Hn Hm Hlt.
  cut (below sample_positions n m).
  { unfold below. destruct (_ !! id n) as [pn|], (_ !! id m) as [pm|];
      try done. by exists pn, pm. }
  revert m Hm Hlt.
  apply (Forall_forall (λ m, level m < level n → below sample_positions n m)).
  revert n Hn.
  apply (sample_nodes_ind
    (λ n, Forall (λ m, level m < level n → below _ n m) nodes)).
  vm_compute; reflexivity.
Qed.

Lemma lower_level_is_lower_on_page_witness :
  ∃ pos pn pm, node_positions = Ok pos ∧
    pos !! "cognitive" = Some pn ∧ pos !! "claude" = Some pm ∧
    num_ltb pn.2 pm.2 = true.
Proof.
  destruct lower_level_is_lower_on_page as (pos & Hpos & Hall).
  destruct (Hall (Node "cognitive" "cognitive/" 3 "config" (Some "specialists"))
                 (Node "claude" ".claude/" 1 "config" (Some "project")))
    as (pn & pm & Hn & Hm & Hlt).
  - apply (bool_decide_unpack _); vm_compute; exact I.
  - apply (bool_decide_unpack _); vm_compute; exact I.
  - simpl. lia.
  - exists pos, pn, pm. repeat split; assumption.
Defined.

(** C4, as stated, fails: the step from [claude] down to [specialists] is
    [3.5] and the step from [specialists] down to [cognitive] is [3.0]. *)
Lemma vertical_step_differs_at_level3 :
  ∃ pos a b c, node_positions = Ok pos ∧
    Node "specialists" "specialists/" 2 "config" (Some "claude") ∈ nodes ∧
    Node "cognitive" "cognitive/" 3 "config" (Some "specialists") ∈ nodes ∧
    pos !! "claude" = Some a ∧ pos !! "specialists" = Some b ∧
    pos !! "cognitive" = Some c ∧
    (a.2 - b.2)%num = Float 3.5 ∧ (b.2 - c.2)%num = Float 3 ∧
    num_eqb (a.2 - b.2) (b.2 - c.2) = false.
Proof.
  exists sample_positions, (Float (-11.25), Float (-3.5)),
    (Float (-11.25), Float (-7)), (Float (-13.5), Float (-10)).
  split; [apply node_positions_ok|].
  split; [apply (bool_decide_unpack _); vm_compute; exact I|].
  split; [apply (bool_decide_unpack _); vm_compute; exact I|].
  vm_compute. by repeat split.
Qed.

(** C4, amended: in the sample the vertical step from a parent down to its
    child is fixed per level: [3.5] for a child at level 1 or 2 and [3.0]
    for a child at level 3. *)
Theorem vertical_step_per_level :
  ∃ pos, node_positions = Ok pos ∧
    ∀ n p, n ∈ nodes → parent n = Some p →
      ∃ pn pp, pos !! id n = Some pn ∧ pos !! p = Some pp ∧
        num_eqb (pp.2 - pn.2) (level_drop (level n)) = true.
Proof.
  exists sample_positions. split; [apply node_positions_ok|].
  intros n p Hn Hp.
  cut (drops_by sample_positions n (level_drop (level n))).
  { unfold drops_by. rewrite Hp.
    destruct (_ !! id n) as [pn|], (_ !! p) as [pp|]; try done.
    by exists pn, pp. }
  clear p Hp. revert n Hn.
  apply (sample_nodes_ind (λ n, drops_by _ n (level_drop (level n)))).
  vm_compute; reflexivity.
Qed.

Lemma vertical_step_per_level_witness :
  ∃ pos pn pp, node_positions = Ok pos ∧
    pos !! "cognitive" = Some pn ∧ pos !! "specialists" = Some pp ∧
    num_eqb (pp.2 - pn.2) (Float 3.0) = true.
Proof.
  destruct vertical_step_per_level as (pos & Hpos & Hall).
  destruct (Hall (Node "cognitive" "cognitive/" 3 "config" (Some "specialists"))
                 "specialists"%string)
    as (pn & pp & Hn & Hp & Hstep).
  - apply (bool_decide_unpack _); vm_compute; exact I.
  - reflexivity.
  - exists pos, pn, pp. repeat split; assumption.
Defined.

(** C5: in the sample a node of level 2 or 3 that is alone in its sibling
    group gets the offset [0] and is at the [x] of its parent. *)
Theorem sole_child_under_parent :
  ∃ pos, node_positions = Ok pos ∧
    ∀ n p, n ∈ nodes → level n = 2 ∨ level n = 3 → parent n = Some p →
      length (group (level n) p) = 1%nat →
      (∀ sp i, x_offset sp (group (level n) p) i = Int 0) ∧
      ∃ pn pp, pos !! id n = Some pn ∧ pos !! p = Some pp ∧
        num_eqb pn.1 pp.1 = true.
Proof.
  exists sample_positions. split; [apply node_positions_ok|].
  intros n p Hn Hlev Hp Hg. split.
  { intros sp i. by apply x_offset_single. }
  cut (under_parent sample_positions n).
  { unfold under_parent. rewrite Hp.
    destruct (_ !! id n) as [pn|], (_ !! p) as [pp|]; try done.
    by exists pn, pp. }
  assert (sole_child n) as Hsole by (unfold sole_child; by rewrite Hp).
  clear p Hp Hg. revert n Hn Hlev Hsole.
  apply (sample_nodes_ind (λ n, level n = 2 ∨ level n = 3 →
    sole_child n → under_parent sample_positions n)).
  vm_compute; reflexivity.
Qed.

Lemma sole_child_under_parent_witness :
  ∃ pos pn pp, node_positions = Ok pos ∧
    pos !! "specialists" = Some pn ∧ pos !! "claude" = Some pp ∧
    num_eqb pn.1 pp.1 = true.
Proof.
  destruct sole_child_under_parent as (pos & Hpos & Hall).
  destruct (Hall (Node "specialists" "specialists/" 2 "config" (Some "claude"))
                 "claude"%string)
    as (_ & pn & pp & Hn & Hp & Hx).
  - apply (bool_decide_unpack _); vm_compute; exact I.
  - by left.
  - reflexivity.
  - reflexivity.
  - exists pos, pn, pp. repeat split; assumption.
Defined.

(** C3: in the sample every sibling group of more than one node is laid out
    symmetrically around the parent: each sibling is at the parent's [x]
    plus the offset the source computes for its index, the list of these
    offsets is its own negation read backwards, and the mean of the
    siblings' [x] is the parent's [x]. *)
Theorem sibling_offsets_symmetric :
  ∃ pos, node_positions = Ok pos ∧
    ∀ k p, (1 < length (group k p))%nat →
      ∃ pp xs, pos !! p = Some pp ∧ xs_of pos (group k p) = Some xs ∧
        offsets_from pp.1 xs (sibling_offsets k (group k p)) ∧
        neg_closed (sibling_offsets k (group k p)) ∧
        num_eqb (mean xs) pp.1 = true.
Proof.
  exists sample_positions. split; [apply node_positions_ok|].
  intros k p Hlen.
  cut (symmetric_about sample_positions k p).
  { unfold symmetric_about.
    destruct (_ !! p) as [pp|], (xs_of _ _) as [xs|]; try done.
    intros (? & ? & ?). by exists pp, xs. }
  destruct (group k p) as [|n g] eqn:Hg; [simpl in Hlen; lia|].
  assert (n ∈ group k p) as (Hp & <- & Hn)%elem_of_group
    by (rewrite Hg; by left).
  rewrite <-Hg in Hlen. clear g Hg. revert n Hn p Hp Hlen.
  cut (∀ n, n ∈ nodes → symmetric_group_of sample_positions n).
  { intros H n Hn p Hp. specialize (H n Hn). unfold symmetric_group_of in H.
    by rewrite Hp in H. }
  apply (sample_nodes_ind (symmetric_group_of sample_positions)).
  vm_compute; reflexivity.
Qed.

Lemma sibling_offsets_symmetric_witness :
  ∃ pos pp xs, node_positions = Ok pos ∧
    pos !! "workflows" = Some pp ∧
    xs_of pos (group 2 "workflows") = Some xs ∧
    offsets_from pp.1 xs (sibling_offsets 2 (group 2 "workflows")) ∧
    neg_closed (sibling_offsets 2 (group 2 "workflows")) ∧
    num_eqb (mean xs) pp.1 = true.
Proof.
  destruct sibling_offsets_symmetric as (pos & Hpos & Hall).
  destruct (Hall 2 "workflows"%string) as (pp & xs & H).
  - vm_compute. lia.
  - exists pos, pp, xs. split; [exact Hpos|exact H].
Defined.

(** ** The figure *)

Lemma add_edge_Ok pos n fig fig' :
  add_edge pos n fig = Ok fig' →
  match parent n with
  | Some _ => ∃ t, connects pos n t ∧ fig' = fig ++ [t]
  | None => fig' = fig
  end.
Proof.
  unfold add_edge. destruct (parent n) as [p|] eqn:Hp; [|by intros [= <-]].
  intros (cp & Hcp%getitem_Ok & (pp & Hpp%getitem_Ok & [= <-])%bind_Ok)%bind_Ok.
  exists (line_trace pp cp). split; [|done]. by exists p, cp, pp.
Qed.

(** The edge loop appends one segment for each node that has a parent, in
    the order of the nodes. *)
Lemma for_each_add_edge pos l fig fig' :
  for_each (add_edge pos) l fig = Ok fig' →
  ∃ edges, fig' = fig ++ edges ∧
    Forall2 (connects pos) (filter has_parent l) edges.
Proof.
  revert fig. induction l as [|n l IH]; intros fig; simpl.
  { intros [= <-]. exists []. by rewrite app_nil_r. }
  intros (fig1 & H1%add_edge_Ok & (edges & -> & Hedges)%IH)%bind_Ok.
  destruct (parent n) as [p|] eqn:Hp.
  - destruct H1 as (t & Ht & ->).
    rewrite filter_cons_True by (unfold has_parent; by rewrite Hp).
    exists (t :: edges). rewrite <-app_assoc. split; [done|].
    by constructor.
  - subst fig1.
    rewrite filter_cons_False by (unfold has_parent; rewrite Hp; by intros [??]).
    by exists edges.
Qed.

(** The category loop adds marker traces only. *)
Lemma add_markers_lines pos ns cs cat fig fig' :
  add_markers pos ns cs cat fig = Ok fig' →
  filter is_line fig' = filter is_line fig.
Proof.
  unfold add_markers. destruct (filter _ ns) as [|n g]; [by intros [= <-]|].
  intros (xs & _ & (ys & _ & (c & _ & [= <-])%bind_Ok)%bind_Ok)%bind_Ok.
  rewrite filter_app, filter_cons_False, filter_nil, app_nil_r; [done|].
  by intros [=].
Qed.

Lemma for_each_add_markers_lines pos ns cs cats fig fig' :
  for_each (add_markers pos ns cs) cats fig = Ok fig' →
  filter is_line fig' = filter is_line fig.
Proof.
  revert fig. induction cats as [|cat cats IH]; intros fig; simpl.
  { by intros [= <-]. }
  by intros (fig1 & H1%add_markers_lines & ->%IH)%bind_Ok.
Qed.

Lemma connects_lines pos l edges :
  Forall2 (connects pos) l edges → filter is_line edges = edges.
Proof.
  induction 1 as [|n t l edges (? & ? & ? & _ & _ & _ & Ht & _) _ IH]; [done|].
  by rewrite filter_cons_True, IH.
Qed.

(** For every node list and every positions dictionary: the line traces of
    the figure are the segments of the nodes that have a parent. *)
Lemma draw_edges ns cs pos fig :
  draw ns cs pos = Ok fig →
  Forall2 (connects pos) (filter has_parent ns) (filter is_line fig).
Proof.
  unfold draw.
  intros (fig1 & (edges & -> & Hedges)%for_each_add_edge
          & ->%for_each_add_markers_lines)%bind_Ok.
  simpl. by erewrite connects_lines.
Qed.

(** A dangling parent that the layout does not look up is looked up by the
    edge loop: whenever the layout returns for a list with a dangling
    parent, drawing raises. *)
Lemma for_each_add_edge_dangling pos ns l fig n :
  placed_from ns pos → n ∈ l → dangling ns n →
  raises (for_each (add_edge pos) l fig).
Proof.
  intros Hpos Hn (p & Hp & Hdang). revert fig.
  induction l as [|m l IH]; intros fig; [by apply elem_of_nil in Hn|].
  simpl. destruct (add_edge pos m fig) as [fig1|e] eqn:H1; [|by exists e].
  apply elem_of_cons in Hn as [->|Hn]; [|by apply IH].
  apply add_edge_Ok in H1. rewrite Hp in H1.
  destruct H1 as (t & (q & cp & pp & Hq & _ & Hpp & _) & _).
  destruct (Hpos q) as (m' & Hm & Hid & _); [by eexists|].
  destruct Hdang. replace p with q by congruence. subst q.
  by apply list_elem_of_fmap_2.
Qed.

(** X8: when the layout returns for a list in which some node has a parent
    that names no node, the drawing of that list raises. *)
Lemma draw_dangling ns cs pos n :
  create_hierarchical_layout ns = Ok pos → n ∈ ns → dangling ns n →
  raises (draw ns cs pos).
Proof.
  intros Hpos%layout_placed_from Hn Hdang. unfold draw.
  destruct (for_each_add_edge_dangling pos ns ns [] n) as [e He]; [done..|].
  exists e. by rewrite He.
Qed.

(** C8: the script draws the sample, and the line traces of its figure are
    as many as the sample nodes that carry a parent, each the segment from
    the computed position of the node's parent to that of the node. *)
Theorem one_segment_per_child :
  ∃ pos fig, node_positions = Ok pos ∧ chart_script = Ok fig ∧
    length (filter is_line fig) = length (filter has_parent nodes) ∧
    Forall2 (connects pos) (filter has_parent nodes) (filter is_line fig).
Proof.
  assert (is_ok (draw nodes colors sample_positions) = true) as Hok
    by (vm_compute; reflexivity).
  destruct (draw nodes colors sample_positions) as [fig|] eqn:Hfig; [|done].
  exists sample_positions, fig. split; [apply node_positions_ok|]. split.
  { unfold chart_script. rewrite node_positions_ok. exact Hfig. }
  apply draw_edges in Hfig. split; [|done].
  symmetry. exact (Forall2_length _ _ _ Hfig).
Qed.

(** ** The printed analysis *)

(** C6: the script prints, for each entry of [systems_analysis] in order, a
    block made of an empty line, the header (the upper-cased name and
    [" ANALYSIS:"]), the line ["Strengths:"], one bullet line for each
    strength in the order of the list, and the organization line. *)
Theorem report_has_one_block_per_system :
  ∃ out blocks, Report.script = Ok out ∧
    Report.splitlines out = concat blocks ∧
    Forall2 (λ entry block, ∃ organization,
        Report.getitem (Report.structure entry.2) "organization"
          = Ok organization ∧
        block =
          [""%string; (upper entry.1 ++ " ANALYSIS:")%string;
           "Strengths:"%string]
          ++ (Report.bullet <$> Report.strengths entry.2)
          ++ [("Organization: " ++ Report.format organization)%string])
      Report.systems_analysis blocks.
Proof.
  do 2 eexists. split; [vm_compute; reflexivity|].
  apply and_comm. split.
  - unfold Report.systems_analysis.
    repeat (constructor;
            [eexists; split; [vm_compute; reflexivity|reflexivity]|]).
    constructor.
  - vm_compute. reflexivity.
Qed.

(** ** A note on rounding *)

(** The symmetry of C3 is that of the offsets the layout adds. The [x] it
    stores is the binary64 sum of the parent's [x] and the offset, so taking
    the parent's [x] away again need not give the offset back to the last
    bit: under [workflows] the two outer children come out at
    [-1.8000000000000007] and [1.7999999999999998] from the parent. *)
Remark recomputed_offsets_round :
  ∃ pos l r p, node_positions = Ok pos ∧
    pos !! "development" = Some l ∧ pos !! "operations" = Some r ∧
    pos !! "workflows" = Some p ∧
    (l.1 - p.1)%num = Float (-1.8000000000000007) ∧
    (r.1 - p.1)%num = Float 1.7999999999999998.
Proof.
  exists sample_positions, (Float (-8.5500000000000007), Float (-7)),
    (Float (-4.9500000000000002), Float (-7)), (Float (-6.75), Float (-3.5)).
  split; [apply node_positions_ok|]. vm_compute. by repeat split.
Qed.

(** * Further properties of the layout *)

Set Warnings "-clear-no-such-hyp".

(** ** The keys of the positions dictionary, exactly *)

Lemma place_level1_dom L i l (pos : positions) :
  dom (place_level1 L i l pos) = id_set l ∪ dom pos.
Proof.
  unfold id_set. revert i pos.
  induction l as [|n l IH]; intros i pos; simpl; [set_solver|].
  rewrite IH, dom_insert_L. set_solver.
Qed.

Section place_loop_more.
Context (sibling_spacing drop : num) (level_nodes : list node).

Local Abbreviation place := (place_child sibling_spacing drop level_nodes).

Lemma for_each_place_dom l (pos pos' : positions) :
  for_each place l pos = Ok pos' → dom pos' = id_set l ∪ dom pos.
Proof.
  unfold id_set. revert pos. induction l as [|n l IH]; intros pos; simpl.
  { intros [= <-]. set_solver. }
  intros (pos1 & (p & pp & i & _ & _ & _ & ->)%place_child_Ok & ->%IH)%bind_Ok.
  rewrite dom_insert_L. set_solver.
Qed.

(** The exceptions of a step are [KeyError]s. *)
Lemma place_child_KeyError n pos e :
  n ∈ level_nodes → place n pos = Raise e → ∃ k, e = KeyError k.
Proof.
  unfold place_child, node_parent, getitem. intros HL H.
  destruct (parent n) as [p|] eqn:Hp; simpl in H;
    [|injection H as <-; by eexists].
  destruct (pos !! p) as [pp|]; simpl in H; [|injection H as <-; by eexists].
  destruct (list_index_elem_of n (siblings_of p level_nodes)) as [i Hi].
  { by apply list_elem_of_filter. }
  by rewrite Hi in H.
Qed.

Lemma for_each_place_KeyError l pos e :
  l ⊆ level_nodes → for_each place l pos = Raise e → ∃ k, e = KeyError k.
Proof.
  revert pos. induction l as [|n l IH]; intros pos Hsub; simpl; [done|].
  intros [H|(pos1 & _ & H)]%bind_Raise.
  - eapply place_child_KeyError; [|done]. apply Hsub. by left.
  - eapply IH; [|done]. intros m Hm. apply Hsub. by right.
Qed.

(** A node without a [parent] key stops the loop. *)
Lemma for_each_place_no_parent l pos n :
  n ∈ l → parent n = None → raises (for_each place l pos).
Proof.
  intros Hn Hp. revert pos. induction l as [|m l IH]; intros pos.
  { by apply elem_of_nil in Hn. }
  simpl. destruct (place m pos) as [pos1|e] eqn:H1; simpl; [|by eexists].
  apply elem_of_cons in Hn as [->|Hn]; [|by apply IH].
  apply place_child_Ok in H1 as (p & _ & _ & Hp' & _). congruence.
Qed.

Lemma place_child_returns n pos p pp i :
  parent n = Some p → pos !! p = Some pp →
  list_index n (siblings_of p level_nodes) = Ok i →
  place n pos =
    Ok (<[id n := ((pp.1 + x_offset sibling_spacing
                                     (siblings_of p level_nodes) i)%num,
                   (pp.2 - drop)%num)]> pos).
Proof.
  intros Hp Hpp Hi. unfold place_child, node_parent, getitem.
  rewrite Hp. simpl. rewrite Hpp. simpl. by rewrite Hi.
Qed.

(** The loop returns when the parent of every node it goes over is
    positioned before the loop starts. *)
Lemma for_each_place_returns l pos :
  l ⊆ level_nodes →
  (∀ n, n ∈ l → ∃ p, parent n = Some p ∧ p ∈ dom pos) →
  ∃ pos', for_each place l pos = Ok pos'.
Proof.
  revert pos. induction l as [|n l IH]; intros pos Hsub Hpar; simpl.
  { by eexists. }
  destruct (Hpar n) as (p & Hp & [pp Hpp]%elem_of_dom); [by left|].
  destruct (list_index_elem_of n (siblings_of p level_nodes)) as [i Hi].
  { apply list_elem_of_filter. split; [done|]. apply Hsub. by left. }
  rewrite (place_child_returns n pos p pp i) by done. simpl.
  apply IH.
  - intros m Hm. apply Hsub. by right.
  - intros m Hm. destruct (Hpar m) as (q & Hq & Hdom); [by right|].
    exists q. split; [done|]. rewrite dom_insert_L. set_solver.
Qed.

End place_loop_more.

Lemma at_level_subseteq k ns : at_level k ns ⊆ ns.
Proof. by intros n [_ ?]%elem_of_at_level. Qed.

Lemma layout_Raise_inv ns e :
  create_hierarchical_layout ns = Raise e →
  (e = IndexError ∧ at_level 0 ns = []) ∨
  (∃ k, e = KeyError k) ∧ at_level 0 ns ≠ [].
Proof.
  unfold create_hierarchical_layout.
  destruct (at_level 0 ns) as [|root l0]; simpl.
  { intros [= <-]. by left. }
  intros [H|(pos2 & _ & [H|(pos3 & _ & [=])]%bind_Raise)]%bind_Raise;
    right; (split; [|done]); by eapply for_each_place_KeyError.
Qed.

(** X1: the layout raises [IndexError] when no node has level 0 and only
    then; any other exception of the layout is a [KeyError]. In particular
    [siblings.index(node)] never raises [ValueError]. *)
Theorem layout_exceptions ns :
  (at_level 0 ns = [] → create_hierarchical_layout ns = Raise IndexError) ∧
  (∀ e, create_hierarchical_layout ns = Raise e →
     (e = IndexError ∧ at_level 0 ns = []) ∨
     (∃ k, e = KeyError k) ∧ at_level 0 ns ≠ []).
Proof.
  split; [|apply layout_Raise_inv].
  unfold create_hierarchical_layout. by intros ->.
Qed.

Lemma layout_exceptions_witness :
  create_hierarchical_layout [] = Raise IndexError.
Proof.
  destruct (layout_exceptions []) as [Hempty _]. by apply Hempty.
Defined.

(** X2: a node of level 2 or 3 whose dictionary has no ['parent'] key makes
    the layout raise a lookup error. *)
Theorem missing_parent_key_raises ns n :
  n ∈ ns → level n = 2 ∨ level n = 3 → parent n = None →
  ∃ e, create_hierarchical_layout ns = Raise e ∧ LookupError e.
Proof.
  intros Hn Hlev Hp.
  destruct (create_hierarchical_layout ns) as [pos|e] eqn:Hlay.
  - exfalso. unfold create_hierarchical_layout in Hlay.
    apply bind_Ok in Hlay as (root & _ & (pos2 & H2 & H)%bind_Ok).
    apply bind_Ok in H as (pos3 & H3 & _).
    destruct Hlev as [Hlev|Hlev].
    + destruct (for_each_place_no_parent (Float 1.8) (Float 3.5)
        (at_level 2 ns) (at_level 2 ns)
        (place_level1 (at_level 1 ns) 0 (at_level 1 ns)
           (<[id root := (Int 0, Int 0)]> ∅)) n) as [e He]; [|done|].
      * by apply elem_of_at_level.
      * unfold place_level2 in H2. congruence.
    + destruct (for_each_place_no_parent (Float 1.5) (Float 3.0)
        (at_level 3 ns) (at_level 3 ns) pos2 n) as [e He]; [|done|].
      * by apply elem_of_at_level.
      * unfold place_level3 in H3. congruence.
  - exists e. split; [done|].
    by destruct (layout_Raise_inv ns e Hlay) as [[-> _]|[[k ->] _]].
Qed.

Lemma elem_of_id_set l k : k ∈ id_set l ↔ k ∈ id <$> l.
Proof. unfold id_set. by rewrite elem_of_list_to_set. Qed.

Lemma list_index_lookup l i n :
  NoDup l → l !! i = Some n → list_index n l = Ok i.
Proof.
  revert i. induction l as [|m l IH]; intros i Hnd Hi; [done|].
  apply NoDup_cons in Hnd as [Hm Hnd]. simpl.
  destruct i as [|i]; simpl in Hi.
  - injection Hi as ->. by rewrite decide_True.
  - rewrite decide_False.
    + by rewrite (IH i).
    + intros ->. by apply Hm, list_elem_of_lookup_2 with i.
Qed.

Section place_loop_lookup.
Context (sibling_spacing drop : num) (level_nodes : list node).

Local Abbreviation place := (place_child sibling_spacing drop level_nodes).

(** What the loop leaves for a node it went over, when the ids of the
    nodes are distinct and new to the dictionary: the node sits at its
    parent's final position, moved by the offset and the drop. *)
Lemma for_each_place_lookup l pos pos' n :
  NoDup (id <$> l) → (∀ m, m ∈ l → id m ∉ dom pos) →
  for_each place l pos = Ok pos' → n ∈ l →
  ∃ p pp i, parent n = Some p ∧ pos' !! p = Some pp ∧
    list_index n (siblings_of p level_nodes) = Ok i ∧
    pos' !! id n =
      Some ((pp.1 + x_offset sibling_spacing
                             (siblings_of p level_nodes) i)%num,
            (pp.2 - drop)%num).
Proof.
  revert pos. induction l as [|m l IH]; intros pos Hnd Hfresh Hloop Hn.
  { by apply elem_of_nil in Hn. }
  rewrite fmap_cons in Hnd. apply NoDup_cons in Hnd as [Hm Hnd].
  simpl in Hloop. apply bind_Ok in Hloop as (pos1 & H1 & Hrest).
  apply place_child_Ok in H1 as (p & pp & i & Hp & Hpp & Hi & ->).
  apply elem_of_cons in Hn as [->|Hn].
  - exists p, pp, i.
    assert (p ∈ dom pos) as Hdom by (apply elem_of_dom; by eexists).
    assert (p ≠ id m) as Hne.
    { intros ->. by apply (Hfresh m); [left|]. }
    assert (p ∉ id <$> l) as Hpl.
    { intros (m' & -> & Hm')%list_elem_of_fmap.
      by apply (Hfresh m'); [right|]. }
    rewrite (for_each_place_lookup_ne _ _ _ _ _ _ p Hpl Hrest).
    rewrite (for_each_place_lookup_ne _ _ _ _ _ _ (id m) Hm Hrest).
    by rewrite lookup_insert_eq, lookup_insert_ne.
  - eapply IH; [done| |exact Hrest|done].
    intros m' Hm'. rewrite dom_insert_L.
    assert (id m' ≠ id m).
    { intros Heq. apply Hm. rewrite <-Heq. by apply list_elem_of_fmap_2. }
    assert (id m' ∉ dom pos) by (apply Hfresh; by right).
    set_solver.
Qed.

End place_loop_lookup.

Lemma at_level_ne_id k1 k2 ns n m :
  NoDup (id <$> ns) → n ∈ at_level k1 ns → m ∈ at_level k2 ns → k1 ≠ k2 →
  id n ≠ id m.
Proof.
  intros Hnd [Hn1 Hn]%elem_of_at_level Hm Hk Heq.
  apply (id_not_at_other_level k2 ns n); [done..|congruence|].
  rewrite Heq. by apply list_elem_of_fmap_2.
Qed.

(** The stages of a layout that returns. *)
Lemma layout_Ok_inv ns pos :
  create_hierarchical_layout ns = Ok pos →
  ∃ root pos2,
    first (at_level 0 ns) = Ok root ∧
    for_each (place_level2 (at_level 2 ns)) (at_level 2 ns)
      (place_level1 (at_level 1 ns) 0 (at_level 1 ns)
         (<[id root := (Int 0, Int 0)]> ∅)) = Ok pos2 ∧
    for_each (place_level3 (at_level 3 ns)) (at_level 3 ns) pos2 = Ok pos.
Proof.
  unfold create_hierarchical_layout.
  intros (root & Hroot & (pos2 & H2 & (pos3 & H3 & [= <-])%bind_Ok)%bind_Ok)%bind_Ok.
  by exists root, pos2.
Qed.

Lemma layout_dom ns pos :
  create_hierarchical_layout ns = Ok pos →
  ∃ root, first (at_level 0 ns) = Ok root ∧
    dom pos = {[id root]} ∪ id_set (at_level 1 ns)
              ∪ id_set (at_level 2 ns) ∪ id_set (at_level 3 ns).
Proof.
  intros (root & pos2 & Hroot & H2 & H3)%layout_Ok_inv. exists root.
  split; [done|].
  apply for_each_place_dom in H3 as ->. apply for_each_place_dom in H2 as ->.
  rewrite place_level1_dom, dom_insert_L, dom_empty_L. set_solver.
Qed.

(** X4: the keys of a returned mapping are exactly the id of the first
    level-0 node and the ids of the nodes of levels 1, 2 and 3. A further
    level-0 node gets no entry of its own. *)
Theorem layout_keys ns pos :
  create_hierarchical_layout ns = Ok pos →
  ∃ root, first (at_level 0 ns) = Ok root ∧
    ∀ k, is_Some (pos !! k) ↔
      k = id root ∨ ∃ n, n ∈ ns ∧ 1 ≤ level n ≤ 3 ∧ id n = k.
Proof.
  intros (root & Hroot & Hdom)%layout_dom. exists root. split; [done|].
  intros k. rewrite <-elem_of_dom, Hdom, !elem_of_union, !elem_of_id_set.
  rewrite elem_of_singleton. split.
  - intros [[[->|Hk]|Hk]|Hk]; [by left|right..];
      apply list_elem_of_fmap in Hk as (n & -> & [Hl Hn]%elem_of_at_level);
      exists n; (split; [done|]); (split; [lia|done]).
  - intros [->|(n & Hn & Hl & <-)]; [by repeat left|].
    assert (level n = 1 ∨ level n = 2 ∨ level n = 3) as [H|[H|H]] by lia.
    + left; left; right. by apply list_elem_of_fmap_2, elem_of_at_level.
    + left; right. by apply list_elem_of_fmap_2, elem_of_at_level.
    + right. by apply list_elem_of_fmap_2, elem_of_at_level.
Qed.

(** X3: the layout returns for every list that has a level-0 node and in
    which each node of level 2 or 3 names as its parent the id of a node one
    level up. *)
Theorem layout_returns_on_tree ns :
  at_level 0 ns ≠ [] →
  (∀ n, n ∈ ns → level n = 2 ∨ level n = 3 →
     ∃ m, m ∈ ns ∧ level m = level n - 1 ∧ parent n = Some (id m)) →
  ∃ pos, create_hierarchical_layout ns = Ok pos.
Proof.
  intros Hroot Htree. unfold create_hierarchical_layout.
  destruct (at_level 0 ns) as [|root l0]; [done|]. simpl.
  set (pos1 := place_level1 _ _ _ _).
  destruct (for_each_place_returns (Float 1.8) (Float 3.5) (at_level 2 ns)
              (at_level 2 ns) pos1) as [pos2 H2]; [done| |].
  { intros n [Hl Hn]%elem_of_at_level.
    destruct (Htree n) as (m & Hm & Hlm & Hp); [done|by left|].
    exists (id m). split; [done|]. unfold pos1.
    rewrite place_level1_dom, elem_of_union, elem_of_id_set. left.
    apply list_elem_of_fmap_2, elem_of_at_level. split; [lia|done]. }
  unfold place_level2. rewrite H2. simpl.
  destruct (for_each_place_returns (Float 1.5) (Float 3.0) (at_level 3 ns)
              (at_level 3 ns) pos2) as [pos3 H3]; [done| |].
  { intros n [Hl Hn]%elem_of_at_level.
    destruct (Htree n) as (m & Hm & Hlm & Hp); [done|by right|].
    exists (id m). split; [done|].
    apply for_each_place_dom in H2 as ->.
    rewrite elem_of_union, elem_of_id_set. left.
    apply list_elem_of_fmap_2, elem_of_at_level. split; [lia|done]. }
  unfold place_level3. rewrite H3. by eexists.
Qed.

Lemma layout_returns_on_tree_witness :
  ∃ pos, create_hierarchical_layout nodes = Ok pos.
Proof.
  apply layout_returns_on_tree.
  - discriminate.
  - apply (Forall_forall (λ n, level n = 2 ∨ level n = 3 → ∃ m, m ∈ nodes ∧
      level m = level n - 1 ∧ parent n = Some (id m))).
    cut (Forall (λ n, level n = 2 ∨ level n = 3 → Exists (λ m,
      level m = level n - 1 ∧ parent n = Some (id m)) nodes) nodes).
    { intros Hall. eapply Forall_impl; [exact Hall|]. intros n H Hl.
      apply H in Hl. apply Exists_exists in Hl as (m & ? & ? & ?).
      by exists m. }
    apply (bool_decide_unpack _); vm_compute; exact I.
Defined.

Lemma layout_fresh ns root :
  NoDup (id <$> ns) → root ∈ at_level 0 ns →
  (∀ m, m ∈ at_level 2 ns →
     id m ∉ dom (place_level1 (at_level 1 ns) 0 (at_level 1 ns)
                   (<[id root := (Int 0, Int 0)]> (∅ : positions)))).
Proof.
  intros Hnd Hroot m Hm.
  rewrite place_level1_dom, dom_insert_L, dom_empty_L.
  rewrite !elem_of_union, elem_of_id_set, elem_of_singleton.
  intros [Hk|[Hk|[]%elem_of_empty]].
  - apply list_elem_of_fmap in Hk as (m' & Heq & Hm').
    by apply (at_level_ne_id 2 1 ns m m').
  - by apply (at_level_ne_id 2 0 ns m root).
Qed.

(** X5: with unique ids, the first level-0 node is at the origin in the
    returned mapping: no later step writes over its entry. *)
Theorem layout_root_at_origin ns pos root :
  create_hierarchical_layout ns = Ok pos → NoDup (id <$> ns) →
  first (at_level 0 ns) = Ok root → pos !! id root = Some (Int 0, Int 0).
Proof.
  intros (root' & pos2 & Hroot' & H2 & H3)%layout_Ok_inv Hnd Hroot.
  replace root' with root in * by congruence. clear Hroot'.
  apply first_Ok in Hroot. apply elem_of_at_level in Hroot as Hr.
  destruct Hr as [Hl Hr].
  assert (∀ k, k ≠ 0 → id root ∉ id <$> at_level k ns) as Hother.
  { intros k Hk. apply id_not_at_other_level; [done..|lia]. }
  rewrite (for_each_place_lookup_ne _ _ _ _ _ _ (id root)
             (Hother 3 ltac:(done)) H3).
  rewrite (for_each_place_lookup_ne _ _ _ _ _ _ (id root)
             (Hother 2 ltac:(done)) H2).
  rewrite place_level1_lookup_ne by (by apply Hother).
  by rewrite lookup_insert_eq.
Qed.

Lemma layout_fresh3 ns root pos2 :
  NoDup (id <$> ns) → root ∈ at_level 0 ns →
  for_each (place_level2 (at_level 2 ns)) (at_level 2 ns)
    (place_level1 (at_level 1 ns) 0 (at_level 1 ns)
       (<[id root := (Int 0, Int 0)]> ∅)) = Ok pos2 →
  ∀ m, m ∈ at_level 3 ns → id m ∉ dom pos2.
Proof.
  intros Hnd Hroot H2 m Hm. apply for_each_place_dom in H2 as ->.
  rewrite place_level1_dom, dom_insert_L, dom_empty_L.
  rewrite !elem_of_union, !elem_of_id_set, elem_of_singleton.
  intros [Hk|[Hk|[Hk|[]%elem_of_empty]]].
  - apply list_elem_of_fmap in Hk as (m' & Heq & Hm').
    by apply (at_level_ne_id 3 2 ns m m').
  - apply list_elem_of_fmap in Hk as (m' & Heq & Hm').
    by apply (at_level_ne_id 3 1 ns m m').
  - by apply (at_level_ne_id 3 0 ns m root).
Qed.

Lemma NoDup_siblings_of p k ns :
  NoDup (id <$> ns) → NoDup (siblings_of p (at_level k ns)).
Proof.
  intros Hnd%NoDup_fmap_1. unfold siblings_of, at_level.
  by do 2 apply NoDup_filter.
Qed.

(** X6: with unique ids, in the returned mapping every node of level 2 or
    3 sits relative to the final position of its parent: at the parent's [x]
    plus the offset of its index among its siblings (spacing [1.8] at level
    2, [1.5] at level 3) and at the parent's [y] less [3.5] at level 2, less
    [3.0] at level 3. *)
Theorem layout_child_position ns pos :
  create_hierarchical_layout ns = Ok pos → NoDup (id <$> ns) →
  (∀ p i n, siblings_of p (at_level 2 ns) !! i = Some n →
     ∃ pp, pos !! p = Some pp ∧
       pos !! id n =
         Some ((pp.1 + x_offset (Float 1.8)
                                (siblings_of p (at_level 2 ns)) i)%num,
               (pp.2 - Float 3.5)%num)) ∧
  (∀ p i n, siblings_of p (at_level 3 ns) !! i = Some n →
     ∃ pp, pos !! p = Some pp ∧
       pos !! id n =
         Some ((pp.1 + x_offset (Float 1.5)
                                (siblings_of p (at_level 3 ns)) i)%num,
               (pp.2 - Float 3.0)%num)).
Proof.
  intros (root & pos2 & Hroot%first_Ok & H2 & H3)%layout_Ok_inv Hnd.
  pose proof (layout_fresh ns root Hnd Hroot) as Hfresh2.
  pose proof (layout_fresh3 ns root pos2 Hnd Hroot H2) as Hfresh3.
  split; intros p i n Hi.
  - pose proof (list_index_lookup _ _ _ (NoDup_siblings_of p 2 ns Hnd) Hi) as Hidx.
    apply list_elem_of_lookup_2, list_elem_of_filter in Hi as [Hp Hn].
    destruct (for_each_place_lookup _ _ _ _ _ _ n
                (NoDup_ids_at_level 2 ns Hnd) Hfresh2 H2 Hn)
      as (p' & pp & i' & Hp' & Hpp & Hi' & Hpos).
    replace p' with p in * by congruence.
    replace i' with i in * by congruence.
    exists pp.
    assert (p ∉ id <$> at_level 3 ns) as Hp3.
    { intros (m & -> & Hm)%list_elem_of_fmap. apply (Hfresh3 m Hm).
      apply elem_of_dom. by eexists. }
    assert (id n ∉ id <$> at_level 3 ns) as Hn3.
    { apply elem_of_at_level in Hn as [Hl Hn].
      apply id_not_at_other_level; [done..|lia]. }
    by rewrite (for_each_place_lookup_ne _ _ _ _ _ _ p Hp3 H3),
               (for_each_place_lookup_ne _ _ _ _ _ _ (id n) Hn3 H3).
  - pose proof (list_index_lookup _ _ _ (NoDup_siblings_of p 3 ns Hnd) Hi) as Hidx.
    apply list_elem_of_lookup_2, list_elem_of_filter in Hi as [Hp Hn].
    destruct (for_each_place_lookup _ _ _ _ _ _ n
                (NoDup_ids_at_level 3 ns Hnd) Hfresh3 H3 Hn)
      as (p' & pp & i' & Hp' & Hpp & Hi' & Hpos).
    replace p' with p in * by congruence.
    replace i' with i in * by congruence.
    by exists pp.
Qed.

(** * Further properties of the figure *)

Lemma mapM_Ok {A B} (f : A → result B) l ys :
  mapM f l = Ok ys ↔ Forall2 (λ x y, f x = Ok y) l ys.
Proof.
  revert ys. induction l as [|x l IH]; intros ys; simpl.
  - split; [intros [= <-]; constructor|by inversion 1].
  - split.
    + intros (y & Hy & (k & Hk%IH & [= <-])%bind_Ok)%bind_Ok. by constructor.
    + inversion 1 as [|?? y k Hy Hk]; subst. apply IH in Hk.
      rewrite Hy. simpl. by rewrite Hk.
Qed.



Lemma filter_nil_has_category ns cat :
  filter (λ n, category n = cat) ns = [] ↔ ¬ has_category ns cat.
Proof.
  unfold has_category. rewrite <-Forall_Exists_neg.
  induction ns as [|n ns IH]; [done|].
  rewrite filter_cons, Forall_cons. case_decide; [|tauto].
  split; [done|tauto].
Qed.


Lemma coord_Ok (pos : positions) (π : position → num) n x :
  (p ← getitem pos (id n); Ok (π p)) = Ok x ↔
  ∃ p, pos !! id n = Some p ∧ x = π p.
Proof.
  rewrite bind_Ok. split.
  - intros (p & Hp%getitem_Ok & [= <-]). by exists p.
  - intros (p & Hp & ->). exists p. by rewrite getitem_Ok.
Qed.

Lemma add_markers_Ok pos ns cs cat fig fig' :
  add_markers pos ns cs cat fig = Ok fig' →
  if decide (has_category ns cat)
  then ∃ t, marks pos ns cs cat t ∧ fig' = fig ++ [t]
  else fig' = fig.
Proof.
  unfold add_markers. case_decide as Hcat.
  - destruct (filter _ ns) as [|n g] eqn:Hg.
    { by apply filter_nil_has_category in Hg. }
    rewrite <-Hg. clear n g Hg.
    intros (xs & Hxs%mapM_Ok & (ys & Hys%mapM_Ok
            & (c & Hc & [= <-])%bind_Ok)%bind_Ok)%bind_Ok.
    eexists. split; [|done]. unfold marks. simpl. split_and!; try done.
    + eapply Forall2_impl; [exact Hxs|]. intros n x. by rewrite coord_Ok.
    + eapply Forall2_impl; [exact Hys|]. intros n y. by rewrite coord_Ok.
    + by exists c.
  - apply filter_nil_has_category in Hcat as ->. by intros [= <-].
Qed.

Lemma for_each_add_markers pos ns cs cats fig fig' :
  for_each (add_markers pos ns cs) cats fig = Ok fig' →
  ∃ ms, fig' = fig ++ ms ∧
    Forall2 (marks pos ns cs) (filter (has_category ns) cats) ms.
Proof.
  revert fig. induction cats as [|cat cats IH]; intros fig; simpl.
  { intros [= <-]. exists []. by rewrite app_nil_r. }
  intros (fig1 & H1%add_markers_Ok & (ms & -> & Hms)%IH)%bind_Ok.
  rewrite filter_cons. case_decide.
  - destruct H1 as (t & Ht & ->). exists (t :: ms).
    rewrite <-app_assoc. split; [done|]. by constructor.
  - subst fig1. by exists ms.
Qed.





(** X11: the layout silently leaves out a node of an unpositioned level,
    but the drawing then raises as soon as that node has a parent or a
    category of the colour table. *)
Theorem unpositioned_node_stops_drawing ns cs pos n :
  create_hierarchical_layout ns = Ok pos →
  n ∈ ns → ¬ positioned_level (level n) →
  (∀ m, m ∈ ns → positioned_level (level m) → id m ≠ id n) →
  has_parent n ∨ category n ∈ cs.*1 →
  raises (draw ns cs pos).
Proof.
  intros Hpos%layout_placed_from Hn Hlev Hid Hshown.
  assert (pos !! id n = None) as Hnone.
  { apply eq_None_not_Some. intros (m & Hm & Hmn & Hmlev)%Hpos.
    by apply (Hid m). }
  destruct (draw ns cs pos) as [fig|e] eqn:Hdraw; [exfalso|by exists e].
  unfold draw in Hdraw.
  apply bind_Ok in Hdraw as (fig1 & (edges & -> & Hedges)%for_each_add_edge
                             & (ms & -> & Hms)%for_each_add_markers).
  destruct Hshown as [Hpar|Hcat].
  - assert (n ∈ filter has_parent ns) as Hin by by apply list_elem_of_filter.
    apply list_elem_of_lookup in Hin as [i Hi].
    destruct (Forall2_lookup_l _ _ _ _ _ Hedges Hi)
      as (t & _ & (p & cp & pp & _ & Hcp & _)).
    congruence.
  - assert (category n ∈ filter (has_category ns) cs.*1) as Hin.
    { apply list_elem_of_filter. split; [|done].
      apply Exists_exists. by exists n. }
    apply list_elem_of_lookup in Hin as [i Hi].
    destruct (Forall2_lookup_l _ _ _ _ _ Hms Hi)
      as (t & _ & (_ & Hxs & _)).
    assert (n ∈ filter (λ m, category m = category n) ns) as Hin'
      by by apply list_elem_of_filter.
    apply list_elem_of_lookup in Hin' as [j Hj].
    destruct (Forall2_lookup_l _ _ _ _ _ Hxs Hj) as (x & _ & (p & Hp & _)).
    congruence.
Qed.

Lemma ids_inj ns n m :
  NoDup (id <$> ns) → n ∈ ns → m ∈ ns → id n = id m → n = m.
Proof.
  induction ns as [|a ns IH]; intros Hnd Hn Hm Heq.
  { by apply elem_of_nil in Hn. }
  rewrite fmap_cons in Hnd. apply NoDup_cons in Hnd as [Ha Hnd].
  apply elem_of_cons in Hn as [->|Hn]; apply elem_of_cons in Hm as [->|Hm].
  - done.
  - destruct Ha. rewrite Heq. by apply list_elem_of_fmap_2.
  - destruct Ha. rewrite <-Heq. by apply list_elem_of_fmap_2.
  - by apply IH.
Qed.

Section relabel.
Context (f g : node → string).

Local Abbreviation r := (relabel f g).

Lemma at_level_relabel k ns : at_level k (r <$> ns) = r <$> at_level k ns.
Proof.
  unfold at_level. induction ns as [|n ns IH]; [done|].
  rewrite fmap_cons, !filter_cons. simpl.
  case_decide; by rewrite ?fmap_cons, IH.
Qed.

Lemma siblings_of_relabel p l : siblings_of p (r <$> l) = r <$> siblings_of p l.
Proof.
  unfold siblings_of. induction l as [|n l IH]; [done|].
  rewrite fmap_cons, !filter_cons. simpl.
  case_decide; by rewrite ?fmap_cons, IH.
Qed.

Lemma list_index_relabel n l :
  (∀ m, m ∈ l → r m = r n → m = n) →
  list_index (r n) (r <$> l) = list_index n l.
Proof.
  induction l as [|m l IH]; intros Hinj; [done|].
  rewrite fmap_cons. simpl.
  destruct (decide (m = n)) as [->|Hne].
  - by rewrite decide_True.
  - rewrite decide_False.
    + rewrite IH; [done|]. intros m' Hm'. apply Hinj. by right.
    + intros Heq. apply Hne, Hinj; [by left|done].
Qed.

Lemma x_offset_relabel sp l i : x_offset sp (r <$> l) i = x_offset sp l i.
Proof. unfold x_offset, len. by rewrite length_fmap. Qed.

Lemma place_child_relabel sp dr ns L n pos :
  NoDup (id <$> ns) → L ⊆ ns → n ∈ ns →
  place_child sp dr (r <$> L) (r n) pos = place_child sp dr L n pos.
Proof.
  intros Hnd HL Hn. unfold place_child.
  change (node_parent (r n)) with (node_parent n).
  destruct (node_parent n) as [p|]; [|done]. simpl.
  destruct (getitem pos p) as [pp|]; [|done]. simpl.
  rewrite siblings_of_relabel, list_index_relabel.
  - destruct (list_index n _) as [i|]; [|done]. simpl.
    by rewrite x_offset_relabel.
  - intros m [_ Hm]%list_elem_of_filter [= Hid _ _ _ _].
    apply (ids_inj ns); auto.
Qed.

Lemma for_each_place_relabel sp dr ns L l pos :
  NoDup (id <$> ns) → L ⊆ ns → l ⊆ ns →
  for_each (place_child sp dr (r <$> L)) (r <$> l) pos
  = for_each (place_child sp dr L) l pos.
Proof.
  intros Hnd HL. revert pos. induction l as [|n l IH]; intros pos Hl; [done|].
  rewrite fmap_cons. simpl.
  rewrite (place_child_relabel sp dr ns) by (try done; apply Hl; by left).
  destruct (place_child sp dr L n pos) as [pos1|]; [|done]. simpl.
  apply IH. intros m Hm. apply Hl. by right.
Qed.

Lemma place_level1_relabel L i l pos :
  place_level1 (r <$> L) i (r <$> l) pos = place_level1 L i l pos.
Proof.
  revert i pos. induction l as [|n l IH]; intros i pos; [done|].
  rewrite fmap_cons. simpl. rewrite IH.
  unfold level1_x, len. by rewrite length_fmap.
Qed.

(** X7: with unique ids the layout reads the id, the level and the parent
    of the nodes and nothing else: other labels and categories give the same
    result. *)
Theorem layout_ignores_label_and_category ns :
  NoDup (id <$> ns) →
  create_hierarchical_layout (r <$> ns) = create_hierarchical_layout ns.
Proof.
  intros Hnd. unfold create_hierarchical_layout.
  rewrite !at_level_relabel.
  destruct (at_level 0 ns) as [|root l0]; [done|].
  rewrite fmap_cons. simpl. rewrite place_level1_relabel.
  unfold place_level2, place_level3.
  rewrite (for_each_place_relabel _ _ ns) by (done || apply at_level_subseteq).
  destruct (for_each _ (at_level 2 ns) _) as [pos2|]; [|done]. simpl.
  by rewrite (for_each_place_relabel _ _ ns) by (done || apply at_level_subseteq).
Qed.

End relabel.

(** * Further properties of the printed analysis *)
















(** * Instances of the further properties *)

Lemma sample_ids_NoDup : NoDup (id <$> nodes).
Proof. apply (bool_decide_unpack _); vm_compute; exact I. Qed.

Lemma missing_parent_key_raises_witness :
  let ns := [Node "project" "project/" 0 "root" None;
             Node "docs" "docs/" 2 "config" None]%string in
  ∃ e, create_hierarchical_layout ns = Raise e ∧ LookupError e.
Proof.
  intros ns.
  apply (missing_parent_key_raises ns (Node "docs" "docs/" 2 "config" None)).
  - by right; left.
  - by left.
  - reflexivity.
Defined.

Lemma layout_keys_witness :
  ∃ root, first (at_level 0 nodes) = Ok root ∧
    ∀ k, is_Some (sample_positions !! k) ↔
      k = id root ∨ ∃ n, n ∈ nodes ∧ 1 ≤ level n ≤ 3 ∧ id n = k.
Proof. exact (layout_keys nodes sample_positions node_positions_ok). Defined.

Lemma layout_root_at_origin_witness :
  sample_positions !! "project" = Some (Int 0, Int 0).
Proof.
  exact (layout_root_at_origin nodes sample_positions
           (Node "project" "project/" 0 "root" None)
           node_positions_ok sample_ids_NoDup eq_refl).
Defined.

Lemma layout_child_position_witness :
  ∃ pp, sample_positions !! "workflows" = Some pp ∧
    sample_positions !! "operations" =
      Some ((pp.1 + x_offset (Float 1.8)
                             (siblings_of "workflows" (at_level 2 nodes)) 2)%num,
            (pp.2 - Float 3.5)%num).
Proof.
  destruct (layout_child_position nodes sample_positions
              node_positions_ok sample_ids_NoDup) as [Hlevel2 _].
  exact (Hlevel2 "workflows"%string 2%nat
           (Node "operations" "operations/" 2 "process" (Some "workflows"))
           eq_refl).
Defined.

Lemma layout_ignores_label_and_category_witness :
  create_hierarchical_layout
    (relabel (λ _, "") (λ n, id n) <$> nodes)
  = create_hierarchical_layout nodes.
Proof.
  exact (layout_ignores_label_and_category (λ _, "") (λ n, id n) nodes
           sample_ids_NoDup).
Defined.

Lemma draw_dangling_witness :
  let ns := [Node "project" "project/" 0 "root" None;
             Node "stray" "stray/" 1 "config" (Some "ghost")]%string in
  raises (draw ns colors
            (<["stray" := (Float 0, Float (-3.5))]>
               (<["project" := (Int 0, Int 0)]> ∅))).
Proof.
  intros ns.
  apply (draw_dangling ns colors _
           (Node "stray" "stray/" 1 "config" (Some "ghost"))).
  - vm_compute; reflexivity.
  - by right; left.
  - exists "ghost"%string. split; [done|].
    by intros [?|[?|?%elem_of_nil]%elem_of_cons]%elem_of_cons.
Defined.


Lemma unpositioned_node_stops_drawing_witness :
  let ns := [Node "project" "project/" 0 "root" None;
             Node "deep" "deep/" 5 "config" (Some "project")]%string in
  raises (draw ns colors (<["project" := (Int 0, Int 0)]> ∅)).
Proof.
  intros ns.
  apply (unpositioned_node_stops_drawing ns colors _
           (Node "deep" "deep/" 5 "config" (Some "project"))).
  - vm_compute; reflexivity.
  - by right; left.
  - unfold positioned_level. simpl. lia.
  - intros m [->|[->|?%elem_of_nil]%elem_of_cons]%elem_of_cons; try done.
    unfold positioned_level. simpl. lia.
  - left. by eexists.
Defined.

